(** * gurobi_ml.torch.sequential: embedding a torch Sequential network

    A shallow embedding of [src/gurobi_ml/torch/sequential.py]: the
    validation scan of [SequentialConstr.__init__], the layer walk of
    [SequentialConstr._mip_model] and the post-solve check
    [SequentialConstr.get_error], together with models of the collaborators
    they call (numpy arrays, torch modules, the solver model and the
    neural-network base construct). *)

From Stdlib Require Import String Ascii ZArith Arith Bool Lia DecimalString List.
From Stdlib Require Import DecimalNat Permutation.
Import ListNotations.
Local Open Scope string_scope.
Local Open Scope list_scope.
Local Open Scope nat_scope.

Set Implicit Arguments.

(** ** Numeric carrier

    Parameters and solution values are floating-point numbers.  Their
    arithmetic is kept abstract: a carrier with the operations the code and
    the network evaluation use.  [float32] is the cast done by
    [torch.Tensor.float()]. *)

Class Numeric : Type := {
  num : Type;
  num_zero : num;
  num_add : num -> num -> num;
  num_mul : num -> num -> num;
  num_sub : num -> num -> num;
  num_relu : num -> num;
  float32 : num -> num
}.

(** The integers, used to run the definitions on concrete inputs. *)
#[export] Instance ZNumeric : Numeric := {|
  num := Z;
  num_zero := 0%Z;
  num_add := Z.add;
  num_mul := Z.mul;
  num_sub := Z.sub;
  num_relu := Z.max 0;
  float32 := fun z => z
|}.

(** ** Two-dimensional arrays

    A 2-D array carries its shape (rows, columns) and its rows.  The same
    structure serves for numpy arrays of numbers and for gurobipy [MVar]
    arrays of decision variables. *)

Record array (A : Type) : Type := mkArray {
  shape : nat * nat;
  rows : list (list A)
}.

Definition wf_array {A} (a : array A) : Prop :=
  length (rows a) = fst (shape a) /\
  Forall (fun r => length r = snd (shape a)) (rows a).

Definition wf_arrayb {A} (a : array A) : bool :=
  (length (rows a) =? fst (shape a)) &&
  forallb (fun r => length r =? snd (shape a)) (rows a).

(** Column [j] of a list of rows: rows too short to have a [j]-th entry
    contribute nothing. *)
Definition column {A} (j : nat) (rs : list (list A)) : list A :=
  flat_map (fun r => match nth_error r j with Some x => [x] | None => [] end) rs.

(** [ndarray.T] on a 2-D array. *)
Definition transpose {A} (a : array A) : array A :=
  {| shape := (snd (shape a), fst (shape a));
     rows := map (fun j => column j (rows a)) (seq 0 (snd (shape a))) |}.

Definition map2 {A B C} (f : A -> B -> C) (l1 : list A) (l2 : list B) : list C :=
  map (fun p => f (fst p) (snd p)) (combine l1 l2).

(** The last element of a list, when it has one. *)
Definition last_error {A} (l : list A) : option A :=
  match l with
  | [] => None
  | x :: r => Some (last r x)
  end.

Definition array_map {A B} (f : A -> B) (a : array A) : array B :=
  {| shape := shape a; rows := map (map f) (rows a) |}.

Definition entry {A} (a : array A) (r c : nat) : option A :=
  match nth_error (rows a) r with
  | Some row => nth_error row c
  | None => None
  end.

Section Tensors.
Context {N : Numeric}.

(** A numpy array or torch tensor: one- or two-dimensional. *)
Inductive tensor : Type :=
| Vec (v : list num)
| Mat (m : array num).

(** [.T]: the transpose of a 2-D array; a 1-D array is its own transpose. *)
Definition T (t : tensor) : tensor :=
  match t with
  | Vec v => Vec v
  | Mat m => Mat (transpose m)
  end.

(** [tensor.float()] *)
Definition to_float (t : tensor) : tensor :=
  match t with
  | Vec v => Vec (map float32 v)
  | Mat m => Mat (array_map float32 m)
  end.

(** numpy broadcasting of one dimension: equal extents, or one of them 1. *)
Definition broadcast_dim (a b : nat) : option nat :=
  if a =? b then Some a
  else if a =? 1 then Some b
  else if b =? 1 then Some a
  else None.

(** Stretch a list of extent 1 to extent [n]; other lists are unchanged. *)
Definition stretch {A} (n : nat) (l : list A) : list A :=
  if length l =? n then l
  else match l with
       | [x] => repeat x n
       | _ => l
       end.

Definition as_matrix (t : tensor) : array num :=
  match t with
  | Vec v => {| shape := (1, length v); rows := [v] |}
  | Mat m => m
  end.

Definition broadcast_sub (a b : array num) : option (array num) :=
  match broadcast_dim (fst (shape a)) (fst (shape b)),
        broadcast_dim (snd (shape a)) (snd (shape b)) with
  | Some r, Some c =>
      Some {| shape := (r, c);
              rows := map2 (map2 num_sub)
                        (stretch r (map (stretch c) (rows a)))
                        (stretch r (map (stretch c) (rows b))) |}
  | _, _ => None
  end.

(** [a - b] on numpy arrays; [None] is numpy's ValueError (operands could
    not be broadcast together). *)
Definition np_sub (a b : tensor) : option tensor :=
  match a, b with
  | Vec u, Vec v =>
      match broadcast_dim (length u) (length v) with
      | Some n => Some (Vec (map2 num_sub (stretch n u) (stretch n v)))
      | None => None
      end
  | _, _ =>
      match broadcast_sub (as_matrix a) (as_matrix b) with
      | Some m => Some (Mat m)
      | None => None
      end
  end.

Definition zeros (s : nat * nat) : array num :=
  {| shape := s; rows := repeat (repeat num_zero (snd s)) (fst s) |}.

(** ** Torch modules

    A layer of the network as the code sees it: its class name
    ([type(step).__name__]), the two [isinstance] tests the code performs,
    its named parameters in iteration order, and its own evaluation
    ([None] when torch raises). *)
Record Module : Type := mkModule {
  type_name : string;
  isinstance_ReLU : bool;
  isinstance_Linear : bool;
  named_parameters : list (string * tensor);
  forward : tensor -> option tensor
}.

(** [nn.Sequential]: the ordered modules; iteration and [len] are those of
    the list. *)
Definition Sequential := list Module.

Fixpoint Sequential_forward (net : Sequential) (x : tensor) : option tensor :=
  match net with
  | [] => Some x
  | m :: rest =>
      match forward m x with
      | Some y => Sequential_forward rest y
      | None => None
      end
  end.

Definition dot (xs ys : list num) : num :=
  fold_right num_add num_zero (map2 num_mul xs ys).

(** [nn.Linear(in, out, bias=...)] with stored weight of shape [out, in]:
    [y = x W^T + b]. *)
Definition Linear_forward (w : array num) (b : option (list num)) (x : tensor)
  : option tensor :=
  match x with
  | Mat xm =>
      if snd (shape xm) =? snd (shape w) then
        Some (Mat {| shape := (fst (shape xm), fst (shape w));
                     rows := map (fun xr =>
                               let y := map (dot xr) (rows w) in
                               match b with
                               | Some bv => map2 num_add y bv
                               | None => y
                               end) (rows xm) |})
      else None
  | Vec _ => None
  end.

Definition nn_Linear (w : array num) (b : option (list num)) : Module :=
  {| type_name := "Linear";
     isinstance_ReLU := false;
     isinstance_Linear := true;
     named_parameters :=
       ("weight", Mat w) ::
       match b with Some bv => [("bias", Vec bv)] | None => [] end;
     forward := Linear_forward w b |}.

Definition nn_ReLU : Module :=
  {| type_name := "ReLU";
     isinstance_ReLU := true;
     isinstance_Linear := false;
     named_parameters := [];
     forward := fun x =>
       Some match x with
            | Vec v => Vec (map num_relu v)
            | Mat m => Mat (array_map num_relu m)
            end |}.

(** A layer kind the translation does not know, e.g. a normalization
    layer. *)
Definition nn_other (name : string) (ps : list (string * tensor)) : Module :=
  {| type_name := name;
     isinstance_ReLU := false;
     isinstance_Linear := false;
     named_parameters := ps;
     forward := fun x => Some x |}.

End Tensors.

(** ** The solver model

    Decision variables are identified by their index in the model; an [MVar]
    is a 2-D array of them. *)

Definition var := nat.
Definition MVar := array var.

(** [addMVar]'s result on a model that already holds [base] variables. *)
Definition fresh_mvar (n k base : nat) : MVar :=
  {| shape := (n, k);
     rows := map (fun r => seq (base + r * k) k) (seq 0 n) |}.

(** [f"{i}"] *)
Definition str (i : nat) : string := NilEmpty.string_of_uint (Nat.to_uint i).

Section Embedding.
Context {N : Numeric}.

Inductive constr : Type :=
| LinEq (y : var) (terms : list (num * var)) (c : num)
    (** [y = sum of coef * x over terms + c] *)
| EqVar (y x : var)
    (** [y = x] *)
| ReluEq (y x : var).
    (** [y = max(0, x)], exactly *)

Inductive SolveState : Type :=
| NotOptimized
| Infeasible
| Solved (X : var -> num).

Record Model : Type := mkModel {
  NumVars : nat;
  Constrs : list constr;
  State : SolveState
}.

Inductive activation : Type := Identity | ReLUAct.

(** Modelled from the spec: a LayerEmbedding (section 3), the object an
    encoder of the base construct returns; its class is not in the source.
    It holds the input and output arrays of one encoded layer and the
    constraints it added. *)
Record Layer : Type := mkLayer {
  layer_name : string;
  layer_input : MVar;
  layer_output : MVar;
  layer_constrs : list constr
}.

(** The arguments of one encoder invocation, as the walker passed them. *)
Inductive call : Type :=
| DenseCall (input_vars : MVar) (layer_coefs layer_intercept : tensor)
    (act : activation) (activation_vars : option MVar) (name : string)
| ActivationCall (input_vars : MVar) (act : activation)
    (activation_vars : option MVar) (name : string).

Definition call_input (c : call) : MVar :=
  match c with
  | DenseCall x _ _ _ _ _ => x
  | ActivationCall x _ _ _ => x
  end.

Definition call_output (c : call) : option MVar :=
  match c with
  | DenseCall _ _ _ _ o _ => o
  | ActivationCall _ _ o _ => o
  end.

Definition call_name (c : call) : string :=
  match c with
  | DenseCall _ _ _ _ _ n => n
  | ActivationCall _ _ _ n => n
  end.

(** Modelled from the spec: [NoModel] and [NoSolution] of
    [gurobi_ml.exceptions], which is not in the source, are the
    UnsupportedLayerKind and NoSolutionAvailable conditions of section 7;
    [DimensionMismatch] is the third condition of that section.  The other
    constructors are exceptions of Python, torch and numpy. *)
Inductive exn : Type :=
| NoModel (predictor : Sequential) (reason : string)
| NoSolution
| UnboundLocalError (local : string)
| KeyError (key : string)
| AttributeError (attr : string)
| DimensionMismatch
| RuntimeError
| ValueError.

(** Modelled from the spec: the fields of the embedding object (section 3),
    which the base construct declares outside the source.
    [self_gp_model] is the solver model the object refers to (the caller's
    model, mutated in place); [encoder_calls] records, in order, the
    arguments of every encoder invocation. *)
Record SequentialConstr : Type := mkSelf {
  self_gp_model : Model;
  self_predictor : Sequential;
  self_input : MVar;
  self_output : option MVar;
  self_layers : list Layer;
  encoder_calls : list call
}.

(** ** State and exceptions

    A method is a function from the object's state to the state it leaves
    and either the raised exception or the returned value.  A raise keeps
    the mutations done before it. *)
Definition M (A : Type) : Type :=
  SequentialConstr -> SequentialConstr * (exn + A).

Definition ret {A} (a : A) : M A := fun s => (s, inr a).

Definition raise {A} (e : exn) : M A := fun s => (s, inl e).

Definition bind {A B} (m : M A) (k : A -> M B) : M B :=
  fun s =>
    match m s with
    | (s', inr a) => k a s'
    | (s', inl e) => (s', inl e)
    end.

Definition gets {A} (f : SequentialConstr -> A) : M A := fun s => (s, inr (f s)).

Definition modify (f : SequentialConstr -> SequentialConstr) : M unit :=
  fun s => (f s, inr tt).

End Embedding.

Notation "x <- c1 ;; c2" := (bind c1 (fun x => c2))
  (at level 61, c1 at next level, right associativity).
Notation "c1 ;; c2" := (bind c1 (fun _ => c2))
  (at level 61, right associativity).

Section NeuralNetBase.
Context {N : Numeric}.

Definition set_gp_model (g : Model) (s : SequentialConstr) : SequentialConstr :=
  {| self_gp_model := g; self_predictor := self_predictor s;
     self_input := self_input s; self_output := self_output s;
     self_layers := self_layers s; encoder_calls := encoder_calls s |}.

Definition set_output (o : option MVar) (s : SequentialConstr) : SequentialConstr :=
  {| self_gp_model := self_gp_model s; self_predictor := self_predictor s;
     self_input := self_input s; self_output := o;
     self_layers := self_layers s; encoder_calls := encoder_calls s |}.

Definition append_layer (l : Layer) (s : SequentialConstr) : SequentialConstr :=
  {| self_gp_model := self_gp_model s; self_predictor := self_predictor s;
     self_input := self_input s; self_output := self_output s;
     self_layers := self_layers s ++ [l]; encoder_calls := encoder_calls s |}.

Definition log_call (c : call) (s : SequentialConstr) : SequentialConstr :=
  {| self_gp_model := self_gp_model s; self_predictor := self_predictor s;
     self_input := self_input s; self_output := self_output s;
     self_layers := self_layers s; encoder_calls := encoder_calls s ++ [c] |}.

(** *** Solver operations (gurobipy) *)

(** [gp_model.addMVar((n, k))]: [n * k] new variables. *)
Definition addMVar (n k : nat) : M MVar :=
  fun s =>
    let g := self_gp_model s in
    (set_gp_model {| NumVars := NumVars g + n * k; Constrs := Constrs g;
                     State := State g |} s,
     inr (fresh_mvar n k (NumVars g))).

(** [gp_model.addConstr(...)] for each constraint of [cs]. *)
Definition addConstrs (cs : list constr) : M unit :=
  modify (fun s =>
    let g := self_gp_model s in
    set_gp_model {| NumVars := NumVars g; Constrs := Constrs g ++ cs;
                    State := State g |} s).

(** [mvar.X]: the solution values of the variables of [v]. *)
Definition MVar_X (v : MVar) : M tensor :=
  fun s =>
    match State (self_gp_model s) with
    | Solved X => (s, inr (Mat (array_map X v)))
    | _ => (s, inl (AttributeError "X"))
    end.

(** *** The neural-network base construct *)

(** Modelled from the spec: the affine encoder's constraints (section 4.2),
    for every sample row and every output column
    [output[row, col] = sum_j X[row, j] * W[j, col] + b[col]];
    [BaseNNConstr.add_dense_layer] is not in the source. *)
Definition affine_constrs (X : MVar) (W : array num) (b : list num) (Y : MVar)
  : list constr :=
  concat (map2 (fun xr yr =>
                  map (fun cyb => LinEq (snd (fst cyb))
                                    (combine (column (fst (fst cyb)) (rows W)) xr)
                                    (snd cyb))
                      (combine (combine (seq 0 (snd (shape W))) yr) b))
               (rows X) (rows Y)).

(** Modelled from the spec: the activation encoder's constraints
    (section 4.3), one per element: identity is a direct equality,
    rectified-linear is exactly [output = max(0, input)]. *)
Definition activation_constrs (act : activation) (X Y : MVar) : list constr :=
  concat (map2 (fun xr yr =>
                  map2 (fun x y => match act with
                                   | Identity => EqVar y x
                                   | ReLUAct => ReluEq y x
                                   end) xr yr)
               (rows X) (rows Y)).

Definition shape_eqb (a b : nat * nat) : bool :=
  (fst a =? fst b) && (snd a =? snd b).

(** Modelled from the spec: the output array of an encoder (sections 4.2
    and 4.3): the pre-supplied one as it is, or a fresh array of the
    expected shape.  That a pre-supplied array has this shape is the
    caller's responsibility and is not checked (section 6). *)
Definition output_array (activation_vars : option MVar) (s : nat * nat) : M MVar :=
  match activation_vars with
  | Some o => ret o
  | None => addMVar (fst s) (snd s)
  end.

(** Modelled from the spec: [BaseNNConstr.add_dense_layer], the affine layer
    encoder of section 4.2, which is not in the source.  Input [X] of shape
    [n, k_in], weights [W] of shape [k_in, k_out], bias of length [k_out];
    a dimension mismatch is the only error.  With the identity activation
    the equalities constrain the output directly; another activation
    constrains a fresh pre-activation array and is encoded on top of it as
    in section 4.3.  The LayerEmbedding is appended to the object's list. *)
Definition add_dense_layer (input_vars : MVar) (layer_coefs layer_intercept : tensor)
    (act : activation) (activation_vars : option MVar) (name : string) : M Layer :=
  modify (log_call (DenseCall input_vars layer_coefs layer_intercept act
                      activation_vars name)) ;;
  match layer_coefs, layer_intercept with
  | Mat W, Vec b =>
      if (snd (shape input_vars) =? fst (shape W)) && (length b =? snd (shape W))
      then
        let s := (fst (shape input_vars), snd (shape W)) in
        Y <- output_array activation_vars s ;;
        cs <- match act with
              | Identity => ret (affine_constrs input_vars W b Y)
              | ReLUAct =>
                  mixing <- addMVar (fst s) (snd s) ;;
                  ret (affine_constrs input_vars W b mixing
                         ++ activation_constrs ReLUAct mixing Y)
              end ;;
        addConstrs cs ;;
        let l := {| layer_name := name; layer_input := input_vars;
                    layer_output := Y; layer_constrs := cs |} in
        modify (append_layer l) ;;
        ret l
      else raise DimensionMismatch
  | _, _ => raise DimensionMismatch
  end.

(** Modelled from the spec: [BaseNNConstr.add_activation_layer], the
    activation layer encoder of section 4.3, which is not in the source. *)
Definition add_activation_layer (input_vars : MVar) (act : activation)
    (activation_vars : option MVar) (name : string) : M Layer :=
  modify (log_call (ActivationCall input_vars act activation_vars name)) ;;
  Y <- output_array activation_vars (shape input_vars) ;;
  let cs := activation_constrs act input_vars Y in
  addConstrs cs ;;
  let l := {| layer_name := name; layer_input := input_vars;
              layer_output := Y; layer_constrs := cs |} in
  modify (append_layer l) ;;
  ret l.

(** Modelled from the spec: [self.actdict], the base construct's dictionary
    of activation encoders, with the two kinds the spec names. *)
Definition actdict (key : string) : M activation :=
  if String.eqb key "relu" then ret ReLUAct
  else if String.eqb key "identity" then ret Identity
  else raise (KeyError key).

(** Modelled from the spec: [self._has_solution()], which is not in the
    source: the solver model holds a completed solution, optimized and
    feasible (section 4.5). *)
Definition _has_solution : M bool :=
  gets (fun s => match State (self_gp_model s) with
                 | Solved _ => true
                 | _ => false
                 end).

(** Modelled from the spec: the base construct's constructor, which is not
    in the source: it stores the network and the caller's arrays, starts
    with no LayerEmbedding and runs the embedding pass, the [_mip_model]
    hook (section 4.4).  It returns the solver model as the call left it
    and the raised exception or the embedding object. *)
Definition BaseNNConstr__init__ (_mip_model : M unit) (gp_model : Model)
    (predictor : Sequential) (input_vars : MVar) (output_vars : option MVar)
  : Model * (exn + SequentialConstr) :=
  let self := {| self_gp_model := gp_model; self_predictor := predictor;
                 self_input := input_vars; self_output := output_vars;
                 self_layers := []; encoder_calls := [] |} in
  match _mip_model self with
  | (s, inr _) => (self_gp_model s, inr s)
  | (s, inl e) => (self_gp_model s, inl e)
  end.

End NeuralNetBase.

(** ** [gurobi_ml/torch/sequential.py] *)

Section SequentialPy.
Context {N : Numeric}.

(** The locals of [_mip_model] that the loop carries from one iteration to
    the next.  [output] is bound from the start (to Python's [None]);
    [layer], [layer_weight] and [layer_bias] are unbound ([None] here)
    until an iteration assigns them. *)
Record locals : Type := mkLocals {
  _input : MVar;
  output : option MVar;
  layer : option Layer;
  layer_weight : option tensor;
  layer_bias : option tensor
}.

(** Reading a local that may still be unbound. *)
Definition read_local {A} (name : string) (v : option A) : M A :=
  match v with
  | Some a => ret a
  | None => raise (UnboundLocalError name)
  end.

(** Lines 74-80: the validation scan of [__init__]. *)
Fixpoint validate (predictor : Sequential) (steps : list Module) : exn + unit :=
  match steps with
  | [] => inr tt
  | step :: rest =>
      if isinstance_ReLU step then validate predictor rest
      else if isinstance_Linear step then validate predictor rest
      else inl (NoModel predictor
                  (String.append "Unsupported layer " (type_name step)))
  end.

(** Lines 103-107: the loop over [step.named_parameters()]. *)
Fixpoint bind_parameters (params : list (string * tensor))
    (layer_weight layer_bias : option tensor) : option tensor * option tensor :=
  match params with
  | [] => (layer_weight, layer_bias)
  | (name, param) :: rest =>
      if String.eqb name "weight" then
        bind_parameters rest (Some (T param)) layer_bias
      else if String.eqb name "bias" then
        bind_parameters rest layer_weight (Some param)
      else bind_parameters rest layer_weight layer_bias
  end.

(** Lines 92-116: one iteration of the loop of [_mip_model]. *)
Definition mip_step (numlayers : nat) (i : nat) (step : Module) (l : locals)
  : M locals :=
  output <- (if (Z.of_nat i =? Z.of_nat numlayers - 1)%Z
             then gets self_output
             else ret (output l)) ;;
  if isinstance_ReLU step then
    act <- actdict "relu" ;;
    layer <- add_activation_layer (_input l) act output (str i) ;;
    ret {| _input := layer_output layer; output := output;
           layer := Some layer;
           layer_weight := layer_weight l; layer_bias := layer_bias l |}
  else if isinstance_Linear step then
    let (lw, lb) := bind_parameters (named_parameters step)
                      (layer_weight l) (layer_bias l) in
    w <- read_local "layer_weight" lw ;;
    b <- read_local "layer_bias" lb ;;
    act <- actdict "identity" ;;
    layer <- add_dense_layer (_input l) w b act output (str i) ;;
    ret {| _input := layer_output layer; output := output;
           layer := Some layer;
           layer_weight := lw; layer_bias := lb |}
  else
    ret {| _input := _input l; output := output; layer := layer l;
           layer_weight := layer_weight l; layer_bias := layer_bias l |}.

(** Line 91: [for i, step in enumerate(network)], from index [i] on. *)
Fixpoint mip_loop (numlayers : nat) (i : nat) (steps : list Module) (l : locals)
  : M locals :=
  match steps with
  | [] => ret l
  | step :: rest =>
      l' <- mip_step numlayers i step l ;;
      mip_loop numlayers (S i) rest l'
  end.

(** Lines 85-118: [SequentialConstr._mip_model]. *)
Definition _mip_model : M unit :=
  network <- gets self_predictor ;;
  _input0 <- gets self_input ;;
  let numlayers := length network in
  l <- mip_loop numlayers 0 network
         {| _input := _input0; output := None; layer := None;
            layer_weight := None; layer_bias := None |} ;;
  o <- gets self_output ;;
  match o with
  | None =>
      layer <- read_local "layer" (layer l) ;;
      modify (set_output (Some (layer_output layer)))
  | Some _ => ret tt
  end.

(** Lines 72-83: [SequentialConstr.__init__].  The unused local [linear]
    of line 73 is left out. *)
Definition SequentialConstr__init__ (gp_model : Model) (predictor : Sequential)
    (input_vars : MVar) (output_vars : option MVar)
  : Model * (exn + SequentialConstr) :=
  match validate predictor predictor with
  | inl e => (gp_model, inl e)
  | inr _ =>
      BaseNNConstr__init__ _mip_model gp_model predictor input_vars output_vars
  end.

(** Lines 27-65: [add_sequential_constr]. *)
Definition add_sequential_constr (gp_model : Model) (sequential_model : Sequential)
    (input_vars : MVar) (output_vars : option MVar)
  : Model * (exn + SequentialConstr) :=
  SequentialConstr__init__ gp_model sequential_model input_vars output_vars.

(** [torch.from_numpy(...)], [predictor.forward(...)], [a - b]: a failure
    of the library is the exception given. *)
Definition lift_option {A} (e : exn) (o : option A) : M A :=
  match o with
  | Some a => ret a
  | None => raise e
  end.

(** Lines 120-140: [SequentialConstr.get_error]. *)
Definition get_error : M tensor :=
  has <- _has_solution ;;
  if has then
    input <- gets self_input ;;
    x <- MVar_X input ;;
    let t_in := to_float x in
    predictor <- gets self_predictor ;;
    t_out <- lift_option RuntimeError (Sequential_forward predictor t_in) ;;
    out <- gets self_output ;;
    out <- lift_option (AttributeError "X") out ;;
    y <- MVar_X out ;;
    lift_option ValueError (np_sub t_out y)
  else raise NoSolution.

End SequentialPy.

(** ** The walk of [_mip_model], as a relation

    What one run of the loop does, read off the state it leaves: the encoder
    invocations it made, the LayerEmbeddings it got back and how it ended. *)

Section Walk.
Context {N : Numeric}.

Definition supported (step : Module) : bool :=
  isinstance_ReLU step || isinstance_Linear step.

(** The [output] argument of iteration [i] (lines 92-93). *)
Definition step_output (numlayers : nat) (o : option MVar) (i : nat) (l : locals)
  : option MVar :=
  if (Z.of_nat i =? Z.of_nat numlayers - 1)%Z then o else output l.

(** The encoder invocation iteration [i] attempts: [None] when neither
    branch of lines 94 and 102 is taken, an exception when an argument is
    an unbound local. *)
Definition step_call (numlayers : nat) (o : option MVar) (i : nat) (step : Module)
    (l : locals) : option (exn + call) :=
  let out := step_output numlayers o i l in
  if isinstance_ReLU step then
    Some (inr (ActivationCall (_input l) ReLUAct out (str i)))
  else if isinstance_Linear step then
    match bind_parameters (named_parameters step) (layer_weight l) (layer_bias l) with
    | (Some w, Some b) => Some (inr (DenseCall (_input l) w b Identity out (str i)))
    | (None, _) => Some (inl (UnboundLocalError "layer_weight"))
    | (Some _, None) => Some (inl (UnboundLocalError "layer_bias"))
    end
  else None.

(** The [layer_weight] and [layer_bias] locals after an iteration on
    [step]: only the affine branch assigns them. *)
Definition step_params (step : Module) (lw lb : option tensor)
  : option tensor * option tensor :=
  if isinstance_ReLU step then (lw, lb)
  else if isinstance_Linear step then bind_parameters (named_parameters step) lw lb
  else (lw, lb).

(** The locals after iteration [i], [lay] being the LayerEmbedding the
    encoder returned (if one was invoked). *)
Definition step_locals (numlayers : nat) (o : option MVar) (i : nat) (step : Module)
    (l : locals) (lay : option Layer) : locals :=
  let out := step_output numlayers o i l in
  let wb := step_params step (layer_weight l) (layer_bias l) in
  {| _input := match lay with Some y => layer_output y | None => _input l end;
     output := out;
     layer := match lay with Some y => Some y | None => layer l end;
     layer_weight := fst wb; layer_bias := snd wb |}.

(** The constraints an invocation asks for, on output array [Y]. *)
Definition call_constrs (c : call) (Y : MVar) : option (list constr) :=
  match c with
  | DenseCall X (Mat W) (Vec b) Identity _ _ => Some (affine_constrs X W b Y)
  | ActivationCall X act _ _ => Some (activation_constrs act X Y)
  | _ => None
  end.

(** [lay] is the LayerEmbedding of invocation [c]. *)
Definition encodes (c : call) (lay : Layer) : Prop :=
  layer_name lay = call_name c /\
  layer_input lay = call_input c /\
  (forall Y, call_output c = Some Y -> layer_output lay = Y) /\
  call_constrs c (layer_output lay) = Some (layer_constrs lay).

Inductive walk (numlayers : nat) (o : option MVar)
  : nat -> list Module -> locals -> list call -> list Layer -> exn + locals -> Prop :=
| walk_done i l :
    walk numlayers o i [] l [] [] (inr l)
| walk_skip i step rest l cs ls r :
    step_call numlayers o i step l = None ->
    walk numlayers o (S i) rest (step_locals numlayers o i step l None) cs ls r ->
    walk numlayers o i (step :: rest) l cs ls r
| walk_unbound i step rest l name :
    step_call numlayers o i step l = Some (inl (UnboundLocalError name)) ->
    walk numlayers o i (step :: rest) l [] [] (inl (UnboundLocalError name))
| walk_mismatch i step rest l c :
    step_call numlayers o i step l = Some (inr c) ->
    walk numlayers o i (step :: rest) l [c] [] (inl DimensionMismatch)
| walk_next i step rest l c lay cs ls r :
    step_call numlayers o i step l = Some (inr c) ->
    encodes c lay ->
    walk numlayers o (S i) rest (step_locals numlayers o i step l (Some lay)) cs ls r ->
    walk numlayers o i (step :: rest) l (c :: cs) (lay :: ls) r.

(** What a method leaves alone: the network, the caller's arrays and the
    solve state; the solver model only grows. *)
Definition frame (s s' : SequentialConstr) : Prop :=
  self_predictor s' = self_predictor s /\
  self_input s' = self_input s /\
  self_output s' = self_output s /\
  State (self_gp_model s') = State (self_gp_model s) /\
  NumVars (self_gp_model s) <= NumVars (self_gp_model s') /\
  exists cs, Constrs (self_gp_model s') = Constrs (self_gp_model s) ++ cs.

(** The state an encoder leaves: one more logged invocation, and either a
    dimension mismatch and nothing else, or one more LayerEmbedding. *)
Definition encoder_post (c : call) (s : SequentialConstr)
    (res : SequentialConstr * (exn + Layer)) : Prop :=
  let (s', r) := res in
  encoder_calls s' = encoder_calls s ++ [c] /\ frame s s' /\
  match r with
  | inl e => e = DimensionMismatch /\ self_layers s' = self_layers s /\
             self_gp_model s' = self_gp_model s
  | inr lay => encodes c lay /\ self_layers s' = self_layers s ++ [lay]
  end.

(** The locals [_mip_model] starts the loop with (lines 87-88). *)
Definition initial_locals (s : SequentialConstr) : locals :=
  {| _input := self_input s; output := None; layer := None;
     layer_weight := None; layer_bias := None |}.

(** How [_mip_model] ends (lines 117-118) after a walk that ended with
    [r], on an object whose output was [o]: the returned value or raised
    exception and the object's output afterwards. *)
Definition mip_end (o : option MVar) (r : exn + locals)
  : (exn + unit) * option MVar :=
  match r with
  | inl e => (inl e, o)
  | inr l =>
      match o with
      | Some _ => (inr tt, o)
      | None =>
          match layer l with
          | Some lay => (inr tt, Some (layer_output lay))
          | None => (inl (UnboundLocalError "layer"), None)
          end
      end
  end.

(** The parameter a module registers under [name] (names are unique in a
    torch module; of several entries the loop of lines 103-107 keeps the
    last). *)
Fixpoint get_parameter (name : string) (params : list (string * tensor))
  : option tensor :=
  match params with
  | [] => None
  | (n, p) :: rest =>
      match get_parameter name rest with
      | Some q => Some q
      | None => if String.eqb n name then Some p else None
      end
  end.

(** The parameter locals after the iterations on [steps]. *)
Fixpoint params_after (steps : list Module) (lw lb : option tensor)
  : option tensor * option tensor :=
  match steps with
  | [] => (lw, lb)
  | step :: rest =>
      params_after rest (fst (step_params step lw lb)) (snd (step_params step lw lb))
  end.

(** An output argument that meets the encoders' contract for an output of
    shape [sh]: none, or an array of that shape. *)
Definition out_ok (out : option MVar) (sh : nat * nat) : bool :=
  match out with
  | Some y => shape_eqb (shape y) sh
  | None => true
  end.

(** The dimension contract of the encoders, along the walk of [steps] from
    index [i] with a cursor of shape [sh]: every affine layer finds a 2-D
    weight and a 1-D bias bound, of the widths of the cursor and of each
    other, and the caller's output, if any, has the last layer's shape. *)
Fixpoint well_shaped (numlayers i : nat) (steps : list Module) (sh : nat * nat)
    (lw lb : option tensor) (o : option MVar) : bool :=
  match steps with
  | [] => true
  | step :: rest =>
      let out := if S i =? numlayers then o else None in
      if isinstance_ReLU step then
        out_ok out sh && well_shaped numlayers (S i) rest sh lw lb o
      else if isinstance_Linear step then
        match bind_parameters (named_parameters step) lw lb with
        | (Some (Mat W), Some (Vec b)) =>
            (snd sh =? fst (shape W)) && (length b =? snd (shape W)) &&
            out_ok out (fst sh, snd (shape W)) &&
            well_shaped numlayers (S i) rest (fst sh, snd (shape W))
              (Some (Mat W)) (Some (Vec b)) o
        | _ => false
        end
      else well_shaped numlayers (S i) rest sh lw lb o
  end.

(** Every layer of [steps] that takes the affine branch finds both
    [layer_weight] and [layer_bias] bound when lines 108-115 read them,
    [lw] and [lb] being the locals before the iterations on [steps]. *)
Fixpoint well_bound (steps : list Module) (lw lb : option tensor) : bool :=
  match steps with
  | [] => true
  | step :: rest =>
      if isinstance_ReLU step then well_bound rest lw lb
      else if isinstance_Linear step then
        match bind_parameters (named_parameters step) lw lb with
        | (Some w, Some b) => well_bound rest (Some w) (Some b)
        | _ => false
        end
      else well_bound rest lw lb
  end.

(** [step] assigns the local [layer_bias]: it takes the affine branch and
    registers a parameter named bias. *)
Definition binds_bias (step : Module) : bool :=
  negb (isinstance_ReLU step) && isinstance_Linear step &&
  match get_parameter "bias" (named_parameters step) with
  | Some _ => true
  | None => false
  end.

(** Iteration [i] passes over [step] without encoding it: it returns and
    has invoked no encoder. *)
Definition skips (numlayers i : nat) (step : Module) (l : locals)
    (s : SequentialConstr) : Prop :=
  encoder_calls (fst (mip_step numlayers i step l s)) = encoder_calls s /\
  exists l', snd (mip_step numlayers i step l s) = inr l'.

(** The equalities of an affine layer in terms of its stored weight [W], of
    shape [out, in]: for every sample row and every output column
    [Y[row, col] = sum_j W[col, j] * X[row, j] + b[col]]. *)
Definition linear_constrs (X : MVar) (W : array num) (b : list num) (Y : MVar)
  : list constr :=
  concat (map2 (fun xr yr =>
                  map (fun cyb => LinEq (snd (fst cyb))
                                    (combine (nth (fst (fst cyb)) (rows W) []) xr)
                                    (snd cyb))
                      (combine (combine (seq 0 (fst (shape W))) yr) b))
               (rows X) (rows Y)).

(** What a run added: the LayerEmbeddings [ls] appended to the object, and
    their constraints, in order, appended to the model's. *)
Definition added (s s' : SequentialConstr) (ls : list Layer) : Prop :=
  self_layers s' = self_layers s ++ ls /\
  Constrs (self_gp_model s') =
    Constrs (self_gp_model s) ++ concat (map layer_constrs ls).

(** The value of the linear expression [sum of coef * x over terms] under
    an assignment [X] of the variables. *)
Definition eval_terms (X : var -> num) (terms : list (num * var)) : num :=
  fold_right num_add num_zero (map (fun t => num_mul (X (snd t)) (fst t)) terms).

(** The assignment [X] satisfies the constraint [c]. *)
Definition satisfies (X : var -> num) (c : constr) : Prop :=
  match c with
  | LinEq y terms k => X y = num_add (eval_terms X terms) k
  | EqVar y x => X y = X x
  | ReluEq y x => X y = num_relu (X x)
  end.

(** A layer as torch builds it: [nn.ReLU()], or [nn.Linear(in, out)] with
    its bias and a stored weight that is a well-formed matrix. *)
Definition torch_layer (m : Module) : Prop :=
  m = nn_ReLU \/ exists W b, wf_array W /\ m = nn_Linear W (Some b).


End Walk.

(** ** Concrete inputs

    A model with two variables, a one-row input over them, and a few small
    networks over the integers. *)

Module Ex.

Definition gp : Model (N := ZNumeric) :=
  {| NumVars := 2; Constrs := []; State := NotOptimized |}.

Definition x : MVar := {| shape := (1, 2); rows := [[0; 1]] |}.

(** Stored weight of [nn.Linear(2, 3)]: shape [out, in] = [3, 2]. *)
Definition W1 : array Z := {| shape := (3, 2); rows := [[1; 2]; [3; 4]; [5; 6]]%Z |}.

Definition b1 : list Z := [10; 20; 30]%Z.

(** Stored weight of [nn.Linear(3, 3, bias=False)]. *)
Definition W2 : array Z :=
  {| shape := (3, 3); rows := [[1; 0; 0]; [0; 1; 0]; [0; 0; 1]]%Z |}.

Definition weight1 : tensor (N := ZNumeric) := Mat W1.
Definition bias1 : tensor (N := ZNumeric) := Vec b1.
Definition weight2 : tensor (N := ZNumeric) := Mat W2.

(** [Linear(2, 3)], [Linear(2, 3, bias=False)], [Linear(3, 3, bias=False)] *)
Definition linear1 : Module (N := ZNumeric) := nn_Linear W1 (Some b1).
Definition linear1_nobias : Module (N := ZNumeric) := nn_Linear W1 None.
Definition linear2_nobias : Module (N := ZNumeric) := nn_Linear W2 None.

(** The invocation of the affine encoder for [linear1] on the input [x]. *)
Definition call1 : call (N := ZNumeric) :=
  DenseCall x (Mat (transpose W1)) (Vec b1) Identity None "0".

(** [Sequential(ReLU(), BatchNorm1d(2))] *)
Definition net_batchnorm : Sequential :=
  [nn_ReLU; nn_other "BatchNorm1d" []].

(** [Sequential(Linear(2, 3, bias=False))] *)
Definition net_nobias : Sequential := [linear1_nobias].

(** [Sequential(Linear(2, 3), ReLU())] *)
Definition net_ok : Sequential := [linear1; nn_ReLU].

(** [Sequential(Linear(2, 3), ReLU(), Linear(3, 3, bias=False))] *)
Definition net_stale : Sequential := [linear1; nn_ReLU; linear2_nobias].

(** The object before the embedding pass runs. *)
Definition self0 (net : Sequential) (o : option MVar) : SequentialConstr :=
  mkSelf gp net x o [] [].

(** The embedding of [net_ok]: variables 2-4 are the affine layer's output,
    variables 5-7 the activation's. *)
Definition obj_ok : SequentialConstr :=
  match snd (add_sequential_constr gp net_ok x None) with
  | inr obj => obj
  | inl _ => self0 net_ok None
  end.

(** A solution: input [(1, 1)], hence [(13, 27, 41)] after each layer. *)
Definition sol (v : var) : Z := nth v [1; 1; 13; 27; 41; 13; 27; 41]%Z 0%Z.

(** [obj_ok] once its model is solved with [sol]. *)
Definition solved : SequentialConstr :=
  set_gp_model {| NumVars := NumVars (self_gp_model obj_ok);
                  Constrs := Constrs (self_gp_model obj_ok);
                  State := Solved sol |} obj_ok.

Definition out_ok_vars : MVar := {| shape := (1, 3); rows := [[5; 6; 7]] |}.

Definition out_ok_values : array Z :=
  {| shape := (1, 3); rows := [[13; 27; 41]]%Z |}.

(** The solver model [net_ok] is embedded into. *)
Definition model_ok : Model (N := ZNumeric) :=
  fst (add_sequential_constr gp net_ok x None).

(** [weight_norm(Linear(2, 3))]: the weight is no longer a parameter; the
    module registers bias, weight_g and weight_v. *)
Definition linear_weight_norm : Module (N := ZNumeric) :=
  {| type_name := "Linear";
     isinstance_ReLU := false;
     isinstance_Linear := true;
     named_parameters :=
       [("bias", bias1); ("weight_g", Mat {| shape := (3, 1); rows := [[1]; [1]; [1]]%Z |});
        ("weight_v", weight1)];
     forward := Linear_forward W1 (Some b1) |}.

(** [Sequential(ReLU(), weight_norm(Linear(2, 3)))] *)
Definition net_weight_norm : Sequential := [nn_ReLU; linear_weight_norm].

(** [Sequential(ReLU(), Linear(2, 3, bias=False))] *)
Definition net_relu_nobias : Sequential := [nn_ReLU; linear1_nobias].

End Ex.

(** ** Facts about walks *)

Section WalkFacts.
Context {N : Numeric}.

Lemma frame_refl s : frame s s.
Proof.
  unfold frame; repeat split; auto. exists []. now rewrite app_nil_r.
Qed.

Lemma frame_trans s1 s2 s3 : frame s1 s2 -> frame s2 s3 -> frame s1 s3.
Proof.
  unfold frame.
  intros (P1 & I1 & O1 & S1 & V1 & c1 & C1) (P2 & I2 & O2 & S2 & V2 & c2 & C2).
  repeat split; try congruence; try lia.
  exists (c1 ++ c2). rewrite C2, C1. now rewrite app_assoc.
Qed.

Lemma output_array_cases (o : option MVar) (sh : nat * nat) s :
  exists Y s', output_array o sh s = (s', inr Y) /\
               (forall Z, o = Some Z -> Y = Z) /\
               encoder_calls s' = encoder_calls s /\
               self_layers s' = self_layers s /\ frame s s'.
Proof.
  destruct o as [Y|]; simpl.
  - exists Y, s.
    split; [reflexivity|]. split; [congruence|].
    split; [reflexivity|]. split; [reflexivity|]. apply frame_refl.
  - eexists _, _. split; [reflexivity|].
    split; [discriminate|]. split; [reflexivity|]. split; [reflexivity|].
    unfold frame; simpl. repeat split; try lia.
    exists []. now rewrite app_nil_r.
Qed.

Lemma add_activation_layer_post x act o name s :
  encoder_post (ActivationCall x act o name) s (add_activation_layer x act o name s).
Proof.
  unfold add_activation_layer, encoder_post, bind, modify, ret, addConstrs.
  destruct (output_array_cases o (shape x) (log_call (ActivationCall x act o name) s))
    as (Y & s' & H & HY & Hc & Hl & Hf); rewrite H.
  simpl. rewrite Hc. split; [reflexivity|].
  destruct Hf as (P & I & O & S & V & cs & C). simpl in *.
  split.
  - repeat split; simpl; auto. exists (cs ++ activation_constrs act x Y).
    rewrite C. now rewrite app_assoc.
  - split; [|now rewrite Hl].
    unfold encodes; simpl. repeat split; auto.
Qed.

Lemma add_dense_layer_post x w b o name s :
  encoder_post (DenseCall x w b Identity o name) s
    (add_dense_layer x w b Identity o name s).
Proof.
  unfold add_dense_layer, encoder_post.
  set (c := DenseCall x w b Identity o name).
  unfold bind at 1. unfold modify at 1.
  assert (Hfail : encoder_calls (log_call c s) = encoder_calls s ++ [c] /\
                  frame s (log_call c s) /\ DimensionMismatch = DimensionMismatch /\
                  self_layers (log_call c s) = self_layers s /\
                  self_gp_model (log_call c s) = self_gp_model s).
  { repeat split; simpl; auto. exists []. now rewrite app_nil_r. }
  destruct w as [v|W]; [exact Hfail|].
  destruct b as [bv|bm]; [|exact Hfail].
  destruct ((snd (shape x) =? fst (shape W)) && (length bv =? snd (shape W)));
    [|exact Hfail].
  unfold bind, modify, ret, addConstrs.
  destruct (output_array_cases o (fst (shape x), snd (shape W)) (log_call c s))
    as (Y & s' & H & HY & Hc & Hl & Hf); rewrite H.
  simpl. rewrite Hc. split; [reflexivity|].
  destruct Hf as (P & I & O & S & V & cs & C). simpl in *.
  split.
  - repeat split; simpl; auto. exists (cs ++ affine_constrs x W bv Y).
    rewrite C. now rewrite app_assoc.
  - split; [|now rewrite Hl].
    unfold encodes; simpl. repeat split; auto.
Qed.

(** One iteration, with the monad unfolded. *)
Lemma mip_step_eq numlayers i step l s :
  mip_step numlayers i step l s =
  let out := step_output numlayers (self_output s) i l in
  let next := fun res : SequentialConstr * (exn + Layer) =>
    match res with
    | (s', inr lay) =>
        (s', inr (step_locals numlayers (self_output s) i step l (Some lay)))
    | (s', inl e) => (s', inl e)
    end in
  if isinstance_ReLU step then
    next (add_activation_layer (_input l) ReLUAct out (str i) s)
  else if isinstance_Linear step then
    match bind_parameters (named_parameters step) (layer_weight l) (layer_bias l) with
    | (Some w, Some b) => next (add_dense_layer (_input l) w b Identity out (str i) s)
    | (None, _) => (s, inl (UnboundLocalError "layer_weight"))
    | (Some _, None) => (s, inl (UnboundLocalError "layer_bias"))
    end
  else (s, inr (step_locals numlayers (self_output s) i step l None)).
Proof.
  unfold mip_step, step_locals, step_params, step_output.
  change (actdict "relu") with (@ret N activation ReLUAct).
  change (actdict "identity") with (@ret N activation Identity).
  unfold read_local, bind, gets, ret, raise.
  destruct (Z.of_nat i =? Z.of_nat numlayers - 1)%Z;
    (destruct (isinstance_ReLU step);
     [ now destruct (add_activation_layer _ _ _ _ s) as [s' [e|lay]]
     | destruct (isinstance_Linear step); [|reflexivity];
       destruct (bind_parameters _ _ _) as [[w|] [b|]]; try reflexivity;
       now destruct (add_dense_layer _ _ _ _ _ _ s) as [s' [e|lay]] ]).
Qed.

Lemma mip_step_cases numlayers i step l s :
  match step_call numlayers (self_output s) i step l with
  | None =>
      mip_step numlayers i step l s =
      (s, inr (step_locals numlayers (self_output s) i step l None))
  | Some (inl e) => mip_step numlayers i step l s = (s, inl e)
  | Some (inr c) =>
      exists s',
        encoder_calls s' = encoder_calls s ++ [c] /\ frame s s' /\
        ((mip_step numlayers i step l s = (s', inl DimensionMismatch) /\
          self_layers s' = self_layers s /\
          self_gp_model s' = self_gp_model s) \/
         (exists lay,
            mip_step numlayers i step l s =
            (s', inr (step_locals numlayers (self_output s) i step l (Some lay))) /\
            encodes c lay /\ self_layers s' = self_layers s ++ [lay]))
  end.
Proof.
  rewrite mip_step_eq. unfold step_call. cbv zeta.
  set (out := step_output numlayers (self_output s) i l).
  destruct (isinstance_ReLU step).
  - pose proof (add_activation_layer_post (_input l) ReLUAct out (str i) s) as H.
    unfold encoder_post in H.
    destruct (add_activation_layer (_input l) ReLUAct out (str i) s) as [s' [e|lay]].
    + destruct H as (Hc & Hf & -> & Hl & Hg). exists s'.
      split; [exact Hc|]. split; [exact Hf|]. left. auto.
    + destruct H as (Hc & Hf & He & Hl). exists s'.
      split; [exact Hc|]. split; [exact Hf|]. right. exists lay. auto.
  - destruct (isinstance_Linear step); [|reflexivity].
    destruct (bind_parameters (named_parameters step) (layer_weight l) (layer_bias l))
      as [[w|] [b|]]; try reflexivity.
    pose proof (add_dense_layer_post (_input l) w b out (str i) s) as H.
    unfold encoder_post in H.
    destruct (add_dense_layer (_input l) w b Identity out (str i) s) as [s' [e|lay]].
    + destruct H as (Hc & Hf & -> & Hl & Hg). exists s'.
      split; [exact Hc|]. split; [exact Hf|]. left. auto.
    + destruct H as (Hc & Hf & He & Hl). exists s'.
      split; [exact Hc|]. split; [exact Hf|]. right. exists lay. auto.
Qed.

Lemma step_call_exn numlayers o i step l e :
  step_call numlayers o i step l = Some (inl e) ->
  exists name, e = UnboundLocalError name.
Proof.
  unfold step_call.
  destruct (isinstance_ReLU step); [discriminate|].
  destruct (isinstance_Linear step); [|discriminate].
  destruct (bind_parameters _ _ _) as [[w|] [b|]]; intros H; inversion H; eauto.
Qed.

(** The loop, run from any state, is a walk; it adds the walk's
    invocations and LayerEmbeddings to the object and touches nothing
    else. *)
Lemma mip_loop_walk steps : forall numlayers i l s,
  exists cs ls,
    walk numlayers (self_output s) i steps l cs ls
      (snd (mip_loop numlayers i steps l s)) /\
    encoder_calls (fst (mip_loop numlayers i steps l s)) = encoder_calls s ++ cs /\
    self_layers (fst (mip_loop numlayers i steps l s)) = self_layers s ++ ls /\
    frame s (fst (mip_loop numlayers i steps l s)).
Proof.
  induction steps as [|step rest IH]; intros numlayers i l s.
  - exists [], []. simpl. rewrite !app_nil_r.
    split; [apply walk_done|]. split; [reflexivity|]. split; [reflexivity|].
    apply frame_refl.
  - simpl mip_loop. unfold bind.
    pose proof (mip_step_cases numlayers i step l s) as H.
    destruct (step_call numlayers (self_output s) i step l) as [[e|c]|] eqn:Ec.
    + rewrite H. exists [], []. simpl. rewrite !app_nil_r.
      split; [|split; [reflexivity|split; [reflexivity|apply frame_refl]]].
      destruct (step_call_exn _ _ _ _ _ Ec) as (name & ->).
      now apply walk_unbound.
    + destruct H as (s' & Hc & Hf & [(H & Hl & Hg) | (lay & H & He & Hl)]);
        rewrite H.
      * exists [c], []. simpl. rewrite app_nil_r.
        split; [now apply walk_mismatch|]. auto.
      * destruct (IH numlayers (S i)
                    (step_locals numlayers (self_output s) i step l (Some lay)) s')
          as (cs & ls & Hw & Hcs & Hls & Hfr).
        exists (c :: cs), (lay :: ls).
        assert (Ho : self_output s' = self_output s) by apply Hf.
        rewrite Ho in Hw.
        split; [now apply walk_next with (lay := lay)|].
        split; [rewrite Hcs, Hc; now rewrite <- app_assoc|].
        split; [rewrite Hls, Hl; now rewrite <- app_assoc|].
        now apply frame_trans with s'.
    + rewrite H.
      destruct (IH numlayers (S i)
                  (step_locals numlayers (self_output s) i step l None) s)
        as (cs & ls & Hw & Hcs & Hls & Hfr).
      exists cs, ls. split; [now apply walk_skip|]. auto.
Qed.


Lemma validate_supported predictor steps :
  validate predictor steps = inr tt <-> forallb supported steps = true.
Proof.
  induction steps as [|step rest IH]; simpl; [tauto|].
  unfold supported at 1.
  destruct (isinstance_ReLU step); simpl; [exact IH|].
  destruct (isinstance_Linear step); simpl; [exact IH|].
  split; discriminate.
Qed.

Lemma step_call_supported numlayers o i step l :
  supported step = true -> step_call numlayers o i step l <> None.
Proof.
  unfold supported, step_call.
  destruct (isinstance_ReLU step); [discriminate|].
  destruct (isinstance_Linear step); [|discriminate].
  now destruct (bind_parameters _ _ _) as [[w|] [b|]].
Qed.

Lemma step_output_nat numlayers o i l :
  step_output numlayers o i l = if S i =? numlayers then o else output l.
Proof.
  unfold step_output.
  destruct (Z.eqb_spec (Z.of_nat i) (Z.of_nat numlayers - 1));
    destruct (Nat.eqb_spec (S i) numlayers); auto; lia.
Qed.

Lemma step_call_name numlayers o i step l c :
  step_call numlayers o i step l = Some (inr c) ->
  call_name c = str i /\ call_input c = _input l /\
  call_output c = step_output numlayers o i l.
Proof.
  unfold step_call.
  destruct (isinstance_ReLU step).
  - intros H; inversion H; subst; simpl; auto.
  - destruct (isinstance_Linear step); [|discriminate].
    destruct (bind_parameters _ _ _) as [[w|] [b|]];
      intros H; inversion H; subst; simpl; auto.
Qed.

(** Every LayerEmbedding comes from an invocation, every invocation from a
    layer. *)
Lemma walk_lengths numlayers o i steps l cs ls r :
  walk numlayers o i steps l cs ls r ->
  length ls <= length cs /\ length cs <= length steps.
Proof.
  induction 1; simpl; lia.
Qed.

(** On a validated network a walk that returns has made one invocation
    and got one LayerEmbedding per layer. *)
Lemma walk_complete numlayers o i steps l cs ls r :
  walk numlayers o i steps l cs ls r ->
  forallb supported steps = true ->
  forall l', r = inr l' ->
  length cs = length steps /\ length ls = length steps.
Proof.
  induction 1; simpl; intros Hv l' Hr; try discriminate; auto.
  - apply andb_prop in Hv. destruct Hv as [Hs _].
    now apply step_call_supported with (numlayers := numlayers) (o := o) (i := i) (l := l) in Hs.
  - apply andb_prop in Hv. destruct Hv as [_ Hv].
    destruct (IHwalk Hv l' Hr). lia.
Qed.

(** The [k]-th LayerEmbedding is the one of the [k]-th invocation. *)
Lemma walk_encodes numlayers o i steps l cs ls r :
  walk numlayers o i steps l cs ls r ->
  forall k lay, nth_error ls k = Some lay ->
  exists c, nth_error cs k = Some c /\ encodes c lay.
Proof.
  induction 1; intros k lay' Hk; try (destruct k; discriminate); auto.
  destruct k as [|k]; simpl in *.
  - inversion Hk; subst. eauto.
  - auto.
Qed.

(** On a validated network the [k]-th invocation is the one of layer
    [i + k]; its output argument is the object's output for the last layer
    and [None] before. *)
Lemma walk_calls numlayers o i steps l cs ls r :
  walk numlayers o i steps l cs ls r ->
  forallb supported steps = true ->
  i + length steps = numlayers ->
  output l = None ->
  forall k c, nth_error cs k = Some c ->
  call_name c = str (i + k) /\
  call_output c = if S k =? length steps then o else None.
Proof.
  induction 1; simpl; intros Hv Hn Ho k c' Hk;
    try (destruct k; discriminate).
  - apply andb_prop in Hv. destruct Hv as [Hs _].
    now apply step_call_supported with (numlayers := numlayers) (o := o) (i := i) (l := l) in Hs.
  - destruct k as [|k]; [|destruct k; discriminate].
    inversion Hk; subst c'.
    destruct (step_call_name _ _ _ _ _ H) as (Hname & _ & Hout).
    rewrite Nat.add_0_r. split; [exact Hname|].
    rewrite Hout, step_output_nat, Ho.
    destruct (Nat.eqb_spec (S i) numlayers); destruct rest; simpl in *;
      auto; lia.
  - apply andb_prop in Hv. destruct Hv as [_ Hv].
    destruct (step_call_name _ _ _ _ _ H) as (Hname & _ & Hout).
    rewrite step_output_nat in Hout.
    destruct k as [|k]; simpl in Hk.
    + inversion Hk; subst c'. rewrite Nat.add_0_r. split; [exact Hname|].
      rewrite Hout, Ho.
      destruct (Nat.eqb_spec (S i) numlayers); destruct rest; simpl in *;
        auto; lia.
    + destruct rest as [|step' rest'].
      * inversion H1; subst; destruct k; discriminate.
      * assert (Ho' : output (step_locals numlayers o i step l (Some lay)) = None).
        { simpl. rewrite step_output_nat, Ho.
          destruct (Nat.eqb_spec (S i) numlayers); simpl in *; auto; lia. }
        destruct (IHwalk Hv ltac:(simpl in *; lia) Ho' k c' Hk) as (Hn' & Ho'').
        rewrite Nat.add_succ_r. split; [exact Hn'|].
        rewrite Ho''. reflexivity.
Qed.

(** The array chain: the first LayerEmbedding reads the cursor the walk
    started with, each later one the output of its predecessor. *)
Lemma walk_chain numlayers o i steps l cs ls r :
  walk numlayers o i steps l cs ls r ->
  (forall lay, nth_error ls 0 = Some lay -> layer_input lay = _input l) /\
  (forall k a b, nth_error ls k = Some a -> nth_error ls (S k) = Some b ->
                 layer_input b = layer_output a).
Proof.
  induction 1; simpl; try (split; intros; try destruct k; discriminate).
  - exact IHwalk.
  - destruct IHwalk as [IH0 IHS].
    destruct (step_call_name _ _ _ _ _ H) as (_ & Hin & _).
    destruct H0 as (_ & Hli & _).
    split.
    + intros lay' E; inversion E; subst. congruence.
    + intros [|k] a b Ha Hb; simpl in *.
      * inversion Ha; subst. now apply IH0.
      * eauto.
Qed.

Lemma last_cons {A} (l : list A) : forall a d, last (a :: l) d = last l a.
Proof.
  induction l as [|x l IH]; intros a d; [reflexivity|].
  change (last (a :: x :: l) d) with (last (x :: l) d).
  now rewrite !IH.
Qed.

(** The [layer] and [_input] locals a returning walk leaves: those of the
    last LayerEmbedding, when it made one. *)
Lemma walk_final numlayers o i steps l cs ls r :
  walk numlayers o i steps l cs ls r ->
  forall l', r = inr l' ->
  match last_error ls with
  | None => layer l' = layer l /\ _input l' = _input l
  | Some lay => layer l' = Some lay /\ _input l' = layer_output lay
  end.
Proof.
  induction 1; intros l' Hr; try discriminate.
  - inversion Hr; subst; simpl; auto.
  - specialize (IHwalk l' Hr). destruct (last_error ls); exact IHwalk.
  - specialize (IHwalk l' Hr). destruct ls as [|lay' ls'].
    + simpl in *. exact IHwalk.
    + unfold last_error in *. now rewrite last_cons.
Qed.

End WalkFacts.

(** ** The embedding pass as a walk *)

Section MipModel.
Context {N : Numeric}.

Lemma _mip_model_walk s :
  exists cs ls,
    let r := snd (mip_loop (length (self_predictor s)) 0 (self_predictor s)
                    (initial_locals s) s) in
    walk (length (self_predictor s)) (self_output s) 0 (self_predictor s)
      (initial_locals s) cs ls r /\
    encoder_calls (fst (_mip_model s)) = encoder_calls s ++ cs /\
    self_layers (fst (_mip_model s)) = self_layers s ++ ls /\
    self_predictor (fst (_mip_model s)) = self_predictor s /\
    self_input (fst (_mip_model s)) = self_input s /\
    (snd (_mip_model s), self_output (fst (_mip_model s))) =
    mip_end (self_output s) r.
Proof.
  unfold _mip_model, bind, gets.
  destruct (mip_loop_walk (self_predictor s) (length (self_predictor s)) 0
              (initial_locals s) s) as (cs & ls & Hw & Hc & Hl & Hf).
  fold (initial_locals s).
  destruct (mip_loop (length (self_predictor s)) 0 (self_predictor s)
              (initial_locals s) s) as [s1 r] eqn:E.
  simpl in Hw, Hc, Hl, Hf.
  destruct Hf as (P & I & O & _).
  exists cs, ls. cbv zeta. cbn [snd]. split; [exact Hw|].
  destruct r as [e|l']; simpl.
  - repeat split; auto. now rewrite O.
  - rewrite O. destruct (self_output s) as [o|] eqn:Eo; simpl.
    + repeat split; auto. now rewrite O.
    + destruct (layer l') as [lay|]; simpl; repeat split; auto.
      now rewrite O.
Qed.

(** The constructor, once validation has passed: the solver model and the
    object are those the embedding pass leaves. *)
Lemma init_validated gp net x o :
  forallb supported net = true ->
  add_sequential_constr gp net x o =
  let s0 := mkSelf gp net x o [] [] in
  (self_gp_model (fst (_mip_model s0)),
   match snd (_mip_model s0) with
   | inl e => inl e
   | inr _ => inr (fst (_mip_model s0))
   end).
Proof.
  intros Hv. apply validate_supported with (predictor := net) in Hv.
  unfold add_sequential_constr, SequentialConstr__init__, BaseNNConstr__init__.
  rewrite Hv. cbv zeta.
  now destruct (_mip_model _) as [s [e|[]]].
Qed.

End MipModel.

(** ** Parameters of affine layers *)

Section Parameters.
Context {N : Numeric}.

Lemma bind_parameters_spec params : forall lw lb,
  bind_parameters params lw lb =
  (match get_parameter "weight" params with
   | Some W => Some (T W)
   | None => lw
   end,
   match get_parameter "bias" params with
   | Some b => Some b
   | None => lb
   end).
Proof.
  induction params as [|[n p] rest IH]; intros lw lb; simpl; [reflexivity|].
  destruct (String.eqb_spec n "weight") as [->|Hw].
  - rewrite IH. simpl.
    destruct (get_parameter "weight" rest), (get_parameter "bias" rest); reflexivity.
  - destruct (String.eqb_spec n "bias") as [->|Hb]; rewrite IH;
      destruct (get_parameter "weight" rest), (get_parameter "bias" rest); reflexivity.
Qed.

(** On a validated network, the [k]-th invocation is the one iteration
    [i + k] attempts on layer [k], with the parameter locals the layers
    before it left. *)
Lemma walk_dispatch numlayers o i steps l cs ls r :
  walk numlayers o i steps l cs ls r ->
  forallb supported steps = true ->
  forall k step c,
    nth_error steps k = Some step -> nth_error cs k = Some c ->
    exists lk,
      (layer_weight lk, layer_bias lk) =
        params_after (firstn k steps) (layer_weight l) (layer_bias l) /\
      step_call numlayers o (i + k) step lk = Some (inr c).
Proof.
  induction 1; simpl; intros Hv k step' c' Hs Hc;
    try (destruct k; discriminate).
  - apply andb_prop in Hv. destruct Hv as [Hsup _].
    now apply step_call_supported with (numlayers := numlayers) (o := o) (i := i) (l := l) in Hsup.
  - destruct k as [|k]; [|destruct k; discriminate].
    simpl in *. inversion Hs; inversion Hc; subst.
    exists l. rewrite Nat.add_0_r. auto.
  - apply andb_prop in Hv. destruct Hv as [_ Hv].
    destruct k as [|k]; simpl in *.
    + inversion Hs; inversion Hc; subst.
      exists l. rewrite Nat.add_0_r. auto.
    + destruct (IHwalk Hv k step' c' Hs Hc) as (lk & Hp & Hk).
      exists lk. rewrite Nat.add_succ_r. split; [exact Hp|exact Hk].
Qed.

(** *** Transposition *)

Lemma column_nth {A} (rs : list (list A)) (j n : nat) :
  Forall (fun r => length r = n) rs -> j < n ->
  forall c, nth_error (column j rs) c =
            match nth_error rs c with
            | Some row => nth_error row j
            | None => None
            end.
Proof.
  intros Hwf Hj. induction Hwf as [|row rs Hrow Hrs IH]; intros c.
  - now destruct c.
  - unfold column in *. simpl.
    destruct (nth_error row j) as [x|] eqn:E.
    + destruct c as [|c]; simpl; [exact (eq_sym E)|apply IH].
    + apply nth_error_None in E. lia.
Qed.

(** The transpose has the shape reversed and entry [(j, c)] is entry
    [(c, j)] of the original. *)
Lemma transpose_entry {A} (a : array A) :
  wf_array a ->
  shape (transpose a) = (snd (shape a), fst (shape a)) /\
  forall j c, j < snd (shape a) -> entry (transpose a) j c = entry a c j.
Proof.
  intros [_ Hrows]. split; [reflexivity|].
  intros j c Hj. unfold entry, transpose. simpl.
  rewrite nth_error_map, nth_error_seq.
  destruct (Nat.ltb_spec j (snd (shape a))); [|lia]. simpl.
  now apply column_nth with (n := snd (shape a)).
Qed.

Lemma wf_transpose {A} (a : array A) : wf_array a -> wf_array (transpose a).
Proof.
  intros [Hlen Hrows]. split; simpl.
  - now rewrite length_map, length_seq.
  - apply Forall_forall. intros r Hr. apply in_map_iff in Hr.
    destruct Hr as (j & <- & Hj). apply in_seq in Hj.
    rewrite <- Hlen. clear Hlen. unfold column.
    induction Hrows as [|row rs Hrow Hrs IH]; simpl; [reflexivity|].
    destruct (nth_error row j) eqn:E.
    + simpl. now rewrite IH.
    + apply nth_error_None in E. lia.
Qed.

(** Column [c] of the transpose is row [c] of the original. *)
Lemma column_transpose {A} (a : array A) (c : nat) (row : list A) :
  wf_array a -> nth_error (rows a) c = Some row ->
  column c (rows (transpose a)) = row.
Proof.
  intros [Hlen Hrows] Hc.
  assert (Hrow : length row = snd (shape a)).
  { rewrite Forall_forall in Hrows. apply Hrows. eapply nth_error_In; eauto. }
  unfold transpose; simpl. rewrite <- Hrow. clear Hrow.
  unfold column at 1. rewrite flat_map_concat_map, map_map.
  assert (E : forall j, j < length row ->
              nth_error (column j (rows a)) c = nth_error row j).
  { intros j Hj. rewrite column_nth with (n := snd (shape a)); auto.
    - now rewrite Hc.
    - rewrite Forall_forall in Hrows. rewrite <- (Hrows row); auto.
      eapply nth_error_In; eauto. }
  clear Hc Hrows Hlen.
  assert (G : forall k (l : list A),
             (forall j, j < length l -> nth_error (column (k + j) (rows a)) c = nth_error l j) ->
             concat (map (fun x => match nth_error (column x (rows a)) c with
                                    | Some y => [y] | None => [] end)
                         (seq k (length l))) = l).
  { intros k l. revert k. induction l as [|x l IH]; intros k Hl; [reflexivity|].
    simpl. specialize (Hl 0 ltac:(simpl; lia)) as H0. rewrite Nat.add_0_r in H0.
    rewrite H0. simpl. f_equal. apply IH. intros j Hj.
    specialize (Hl (S j) ltac:(simpl; lia)). rewrite Nat.add_succ_r in Hl.
    exact Hl. }
  apply (G 0 row). intros j Hj. now apply E.
Qed.

End Parameters.


(** ** Validation (section 4.1) *)

Section Validation.
Context {N : Numeric}.

(** The scan stops at the first layer that is neither kind and names it. *)
Lemma validate_unsupported predictor steps :
  (exists step, In step steps /\
                isinstance_ReLU step = false /\ isinstance_Linear step = false) ->
  exists pre step post,
    steps = pre ++ step :: post /\ forallb supported pre = true /\
    isinstance_ReLU step = false /\ isinstance_Linear step = false /\
    validate predictor steps =
    inl (NoModel predictor (String.append "Unsupported layer " (type_name step))).
Proof.
  induction steps as [|a rest IH]; intros (step & Hin & Hr & Hl).
  - destruct Hin.
  - destruct (supported a) eqn:Ea.
    + destruct Hin as [->|Hin].
      { unfold supported in Ea. rewrite Hr, Hl in Ea. discriminate. }
      destruct IH as (pre & step' & post & -> & Hpre & Hr' & Hl' & Hv);
        [now exists step|].
      exists (a :: pre), step', post. simpl. rewrite Ea, Hpre.
      repeat split; auto.
      unfold supported in Ea.
      destruct (isinstance_ReLU a); [exact Hv|].
      destruct (isinstance_Linear a); [exact Hv|discriminate].
    + unfold supported in Ea. apply orb_false_elim in Ea. destruct Ea as [Ea1 Ea2].
      exists [], a, rest. simpl. rewrite Ea1, Ea2. auto.
Qed.

(** C1: a network with a layer that is neither an [nn.Linear] nor an
    [nn.ReLU] makes the constructor raise [NoModel] with the message
    "Unsupported layer <class name>" for the first such layer, and the
    solver model is returned as it was passed: no variable, no constraint
    added. *)
Theorem C1_unsupported_layer_raises_NoModel
    (gp_model : Model) (net : Sequential) (input_vars : MVar)
    (output_vars : option MVar) :
  (exists step, In step net /\
                isinstance_ReLU step = false /\ isinstance_Linear step = false) ->
  exists pre step post,
    net = pre ++ step :: post /\ forallb supported pre = true /\
    isinstance_ReLU step = false /\ isinstance_Linear step = false /\
    add_sequential_constr gp_model net input_vars output_vars =
    (gp_model,
     inl (NoModel net (String.append "Unsupported layer " (type_name step)))).
Proof.
  intros H.
  destruct (validate_unsupported net net H) as (pre & step & post & E & Hp & Hr & Hl & Hv).
  exists pre, step, post. repeat split; auto.
  unfold add_sequential_constr, SequentialConstr__init__. now rewrite Hv.
Qed.

(** C10: the empty network passes the validation scan; the embedding pass
    over it, on an object without a caller-supplied output, invokes no
    encoder and raises on reading the unbound local [layer]; so does the
    constructor, leaving the solver model unchanged. *)
Theorem C10_empty_network_unbound_layer (gp_model : Model) (input_vars : MVar) :
  validate [] [] = inr tt /\
  (forall s : SequentialConstr,
     self_predictor s = [] -> self_output s = None ->
     _mip_model s = (s, inl (UnboundLocalError "layer"))) /\
  add_sequential_constr gp_model [] input_vars None =
  (gp_model, inl (UnboundLocalError "layer")).
Proof.
  split; [reflexivity|]. split; [|reflexivity].
  intros s Hp Ho. unfold _mip_model, bind, gets. rewrite Hp. simpl.
  unfold ret. now rewrite Ho.
Qed.

End Validation.

Lemma C1_witness :
  (exists step, In step Ex.net_batchnorm /\
                isinstance_ReLU step = false /\ isinstance_Linear step = false) /\
  exists pre step post,
    Ex.net_batchnorm = pre ++ step :: post /\ forallb supported pre = true /\
    isinstance_ReLU step = false /\ isinstance_Linear step = false /\
    add_sequential_constr Ex.gp Ex.net_batchnorm Ex.x None =
    (Ex.gp,
     inl (NoModel Ex.net_batchnorm
            (String.append "Unsupported layer " (type_name step)))).
Proof.
  assert (H : exists step, In step Ex.net_batchnorm /\
                isinstance_ReLU step = false /\ isinstance_Linear step = false).
  { exists (nn_other "BatchNorm1d" []). simpl. auto. }
  split; [exact H|].
  exact (C1_unsupported_layer_raises_NoModel Ex.gp Ex.net_batchnorm Ex.x None H).
Defined.

(** ** Error evaluation (section 4.5) *)

Section GetError.
Context {N : Numeric}.

(** [get_error] with the monad unfolded: it reads the state and returns
    it. *)
Lemma get_error_eq s :
  get_error s =
  (s,
   match State (self_gp_model s) with
   | Solved X =>
       match Sequential_forward (self_predictor s)
               (to_float (Mat (array_map X (self_input s)))) with
       | Some t_out =>
           match self_output s with
           | Some out =>
               match np_sub t_out (Mat (array_map X out)) with
               | Some d => inr d
               | None => inl ValueError
               end
           | None => inl (AttributeError "X")
           end
       | None => inl RuntimeError
       end
   | _ => inl NoSolution
   end).
Proof.
  unfold get_error, _has_solution, MVar_X, lift_option, bind, gets, ret, raise.
  destruct (State (self_gp_model s)) as [| |X] eqn:E; try reflexivity.
  rewrite E.
  destruct (Sequential_forward _ _) as [t_out|]; [|reflexivity].
  destruct (self_output s) as [out|]; [|reflexivity].
  rewrite E. now destruct (np_sub _ _).
Qed.

Lemma stretch_id {A} (n : nat) (l : list A) : length l = n -> stretch n l = l.
Proof.
  intros H. unfold stretch. now rewrite H, Nat.eqb_refl.
Qed.

Lemma broadcast_dim_refl a : broadcast_dim a a = Some a.
Proof.
  unfold broadcast_dim. now rewrite Nat.eqb_refl.
Qed.

Lemma map_stretch_id {A} (c : nat) (rs : list (list A)) :
  Forall (fun r => length r = c) rs -> map (stretch c) rs = rs.
Proof.
  induction 1 as [|r rs Hr Hrs IH]; simpl; [reflexivity|].
  now rewrite IH, stretch_id.
Qed.

(** On arrays of one shape the subtraction is element-wise. *)
Lemma np_sub_same_shape (a b : array num) :
  wf_array a -> wf_array b -> shape a = shape b ->
  np_sub (Mat a) (Mat b) =
  Some (Mat {| shape := shape b;
               rows := map2 (map2 num_sub) (rows a) (rows b) |}).
Proof.
  intros [La Ra] [Lb Rb] E. unfold np_sub, broadcast_sub. simpl.
  rewrite E, !broadcast_dim_refl.
  rewrite E in La, Ra.
  rewrite !map_stretch_id, !stretch_id by auto.
  now destruct (shape b).
Qed.

Lemma map2_diag {A B} (f : A -> A -> B) (l : list A) :
  map2 f l l = map (fun a => f a a) l.
Proof.
  unfold map2. induction l as [|a l IH]; simpl; [reflexivity|]. now rewrite IH.
Qed.

Lemma sub_self_zeros (a : array num) :
  (forall v : num, num_sub v v = num_zero) -> wf_array a ->
  {| shape := shape a; rows := map2 (map2 num_sub) (rows a) (rows a) |} =
  zeros (shape a).
Proof.
  intros Hd [La Ra]. unfold zeros. f_equal.
  rewrite map2_diag, <- La. clear La.
  induction Ra as [|r rs Hr Hrs IH]; simpl; [reflexivity|].
  rewrite IH. f_equal. rewrite map2_diag, <- Hr. clear - Hd.
  induction r as [|v r IH]; simpl; [reflexivity|]. now rewrite Hd, IH.
Qed.

(** C4: [get_error] raises [NoSolution] exactly when the solver model holds
    no completed solution (it was not optimized, or is infeasible).  With a
    solution it never raises [NoSolution], and it returns the difference
    whenever the network evaluates on the input values and the subtraction
    is defined. *)
Theorem C4_NoSolution_iff_no_solution (s : SequentialConstr) :
  (snd (get_error s) = inl NoSolution <->
   State (self_gp_model s) = NotOptimized \/ State (self_gp_model s) = Infeasible) /\
  (forall X, State (self_gp_model s) = Solved X ->
     snd (get_error s) <> inl NoSolution /\
     forall t_out out d,
       Sequential_forward (self_predictor s)
         (to_float (Mat (array_map X (self_input s)))) = Some t_out ->
       self_output s = Some out ->
       np_sub t_out (Mat (array_map X out)) = Some d ->
       snd (get_error s) = inr d).
Proof.
  rewrite get_error_eq. simpl.
  split.
  - destruct (State (self_gp_model s)) as [| |X]; split; auto;
      try (intros [H|H]; discriminate).
    destruct (Sequential_forward _ _) as [t|]; [|discriminate].
    destruct (self_output s) as [out|]; [|discriminate].
    destruct (np_sub _ _); discriminate.
  - intros X ->. split.
    + destruct (Sequential_forward _ _) as [t|]; [|discriminate].
      destruct (self_output s) as [out|]; [|discriminate].
      destruct (np_sub _ _); discriminate.
    + intros t_out out d -> -> ->. reflexivity.
Qed.

(** C5: on a solved model [get_error] reads the solution values of the
    input variables, casts them with [float()], evaluates the network's own
    [forward] on them and returns that result minus the solution values of
    the output variables, element by element.  When the output values are
    exactly the recomputed ones the result is the zero array of the
    output's shape (exactly zero whenever [v - v] is zero for every value
    involved). *)
Theorem C5_get_error_is_forward_minus_output
    (s : SequentialConstr) (X : var -> num) (out : MVar) (m : array num) :
  State (self_gp_model s) = Solved X ->
  self_output s = Some out ->
  wf_array out ->
  Sequential_forward (self_predictor s)
    (to_float (Mat (array_map X (self_input s)))) = Some (Mat m) ->
  wf_array m ->
  shape m = shape out ->
  snd (get_error s) =
    inr (Mat {| shape := shape out;
                rows := map2 (map2 num_sub) (rows m) (map (map X) (rows out)) |}) /\
  ((forall v : num, num_sub v v = num_zero) ->
   m = array_map X out ->
   snd (get_error s) = inr (Mat (zeros (shape out)))).
Proof.
  intros Hs Ho Hwo Hf Hwm Hsh.
  assert (Hwx : wf_array (array_map X out)).
  { destruct Hwo as [L R]. split; simpl.
    - now rewrite length_map.
    - apply Forall_map. eapply Forall_impl; [|exact R].
      intros r Hr. simpl. now rewrite length_map. }
  assert (E : snd (get_error s) =
              inr (Mat {| shape := shape out;
                          rows := map2 (map2 num_sub) (rows m)
                                    (map (map X) (rows out)) |})).
  { rewrite get_error_eq. cbn [snd]. rewrite Hs, Hf, Ho.
    rewrite np_sub_same_shape; auto. }
  split; [exact E|].
  intros Hd ->. rewrite E. f_equal. f_equal.
  apply (sub_self_zeros Hd Hwx).
Qed.

(** C7: [get_error] leaves the object and the solver model as they were:
    every field of the embedding, every variable and constraint of the
    model, whether it returns or raises. *)
Theorem C7_get_error_does_not_mutate (s : SequentialConstr) :
  fst (get_error s) = s.
Proof.
  now rewrite get_error_eq.
Qed.

End GetError.

(** ** Runs of the embedding pass *)

Section Runs.
Context {N : Numeric}.

Lemma output_array_returns out sh s :
  out_ok out sh = true ->
  exists s' Y, output_array out sh s = (s', inr Y) /\ shape Y = sh.
Proof.
  destruct out as [Y|]; simpl; intros H.
  - exists s, Y. split; [reflexivity|].
    unfold shape_eqb in H. apply andb_prop in H. destruct H as [H1 H2].
    apply Nat.eqb_eq in H1, H2. destruct (shape Y), sh; simpl in *. congruence.
  - eexists _, _. split; [reflexivity|]. simpl. now destruct sh.
Qed.

Lemma add_activation_layer_returns x act out name s :
  out_ok out (shape x) = true ->
  exists s' lay, add_activation_layer x act out name s = (s', inr lay) /\
                 shape (layer_output lay) = shape x.
Proof.
  intros H. unfold add_activation_layer, bind, modify, ret, addConstrs.
  destruct (output_array_returns out (shape x)
              (log_call (ActivationCall x act out name) s) H) as (s' & Y & E & HY).
  rewrite E. eexists _, _. split; [reflexivity|]. exact HY.
Qed.

Lemma add_dense_layer_returns x W b out name s :
  (snd (shape x) =? fst (shape W)) && (length b =? snd (shape W)) = true ->
  out_ok out (fst (shape x), snd (shape W)) = true ->
  exists s' lay,
    add_dense_layer x (Mat W) (Vec b) Identity out name s = (s', inr lay) /\
    shape (layer_output lay) = (fst (shape x), snd (shape W)).
Proof.
  intros Hd H. unfold add_dense_layer. unfold bind at 1. unfold modify at 1.
  rewrite Hd. unfold bind, modify, ret, addConstrs.
  destruct (output_array_returns out (fst (shape x), snd (shape W))
              (log_call (DenseCall x (Mat W) (Vec b) Identity out name) s) H)
    as (s' & Y & E & HY).
  rewrite E. eexists _, _. split; [reflexivity|]. exact HY.
Qed.

(** The loop over a concatenation. *)
Lemma mip_loop_app numlayers pre : forall i rest l s,
  mip_loop numlayers i (pre ++ rest) l s =
  match mip_loop numlayers i pre l s with
  | (s', inr l') => mip_loop numlayers (i + length pre) rest l' s'
  | (s', inl e) => (s', inl e)
  end.
Proof.
  induction pre as [|step pre IH]; intros i rest l s; simpl.
  - now rewrite Nat.add_0_r.
  - unfold bind. destruct (mip_step numlayers i step l s) as [s1 [e|l1]];
      [reflexivity|].
    rewrite IH. now rewrite Nat.add_succ_r.
Qed.

(** Under the dimension contract the loop returns. *)
Lemma mip_loop_returns steps : forall numlayers i l s,
  i + length steps = numlayers ->
  output l = None ->
  well_shaped numlayers i steps (shape (_input l)) (layer_weight l) (layer_bias l)
    (self_output s) = true ->
  exists s' l', mip_loop numlayers i steps l s = (s', inr l').
Proof.
  induction steps as [|step rest IH]; intros numlayers i l s Hn Ho Hw.
  - eexists _, _. reflexivity.
  - simpl in Hw. simpl mip_loop. unfold bind. rewrite mip_step_eq. cbv zeta.
    rewrite step_output_nat, Ho.
    assert (Hnext : forall s1 l1,
              self_output s1 = self_output s ->
              (rest <> [] -> output l1 = None) ->
              well_shaped numlayers (S i) rest (shape (_input l1))
                (layer_weight l1) (layer_bias l1) (self_output s) = true ->
              exists s' l', mip_loop numlayers (S i) rest l1 s1 = (s', inr l')).
    { intros s1 l1 Hs1 Ho1 Hw1. destruct rest as [|step' rest'].
      - eexists _, _. reflexivity.
      - apply IH.
        + simpl in *. lia.
        + apply Ho1. discriminate.
        + now rewrite Hs1. }
    assert (Hout : rest <> [] -> (if S i =? numlayers then self_output s else None) = None).
    { intros Hr. destruct (Nat.eqb_spec (S i) numlayers); [|reflexivity].
      destruct rest; [congruence|simpl in *; lia]. }
    set (out := if S i =? numlayers then self_output s else None) in *.
    destruct (isinstance_ReLU step) eqn:Er.
    + apply andb_prop in Hw. destruct Hw as [Hok Hw].
      pose proof (add_activation_layer_post (_input l) ReLUAct out (str i) s) as Hp.
      destruct (add_activation_layer_returns (_input l) ReLUAct out (str i) s Hok)
        as (s1 & lay & E & Hsh).
      rewrite E in *. destruct Hp as (_ & (_ & _ & Hso & _) & _).
      apply Hnext; auto.
      * intros Hr. simpl. rewrite step_output_nat, Ho. now apply Hout.
      * simpl. unfold step_params. rewrite Er. simpl. now rewrite Hsh.
    + destruct (isinstance_Linear step) eqn:El.
      * destruct (bind_parameters (named_parameters step) (layer_weight l) (layer_bias l))
          as [[[v|W]|] [[b|bm]|]] eqn:Eb; try discriminate.
        apply andb_prop in Hw. destruct Hw as [Hw Hrest].
        apply andb_prop in Hw. destruct Hw as [Hd Hok].
        pose proof (add_dense_layer_post (_input l) (Mat W) (Vec b) out (str i) s) as Hp.
        destruct (add_dense_layer_returns (_input l) W b out (str i) s Hd Hok)
          as (s1 & lay & E & Hsh).
        rewrite E in *. destruct Hp as (_ & (_ & _ & Hso & _) & _).
        apply Hnext; auto.
        -- intros Hr. simpl. rewrite step_output_nat, Ho. now apply Hout.
        -- simpl. unfold step_params. rewrite Er, El, Eb. simpl. now rewrite Hsh.
      * apply Hnext; auto.
        -- intros Hr. simpl. rewrite step_output_nat, Ho. now apply Hout.
        -- simpl. unfold step_params. rewrite Er, El. simpl. exact Hw.
Qed.

Lemma last_error_app {A} (l1 l2 : list A) (a : A) :
  last_error l2 = Some a -> last_error (l1 ++ l2) = Some a.
Proof.
  destruct l2 as [|x l2]; [discriminate|]. intros H.
  induction l1 as [|y l1 IH]; [exact H|].
  simpl in *. destruct (l1 ++ x :: l2) as [|z r] eqn:E; [discriminate|].
  simpl in IH. now rewrite last_cons.
Qed.

Lemma last_error_nth {A} (l : list A) (a : A) :
  last_error l = Some a -> nth_error l (length l - 1) = Some a.
Proof.
  destruct l as [|x l]; [discriminate|]. simpl. rewrite Nat.sub_0_r.
  intros H. inversion H; subst. clear H.
  revert x. induction l as [|y l IH]; intros x; [reflexivity|].
  rewrite last_cons. exact (IH y).
Qed.

Lemma last_error_length {A} (l : list A) :
  0 < length l -> exists a, last_error l = Some a.
Proof.
  destruct l; simpl; [lia|eauto].
Qed.

(** How a returning pass ends: one invocation and one LayerEmbedding per
    layer of a validated network, and the object's output is the caller's
    or, when there was none, the output of the last LayerEmbedding. *)
Lemma _mip_model_inr s cs ls :
  forallb supported (self_predictor s) = true ->
  walk (length (self_predictor s)) (self_output s) 0 (self_predictor s)
    (initial_locals s) cs ls
    (snd (mip_loop (length (self_predictor s)) 0 (self_predictor s)
            (initial_locals s) s)) ->
  (snd (_mip_model s), self_output (fst (_mip_model s))) =
  mip_end (self_output s)
    (snd (mip_loop (length (self_predictor s)) 0 (self_predictor s)
            (initial_locals s) s)) ->
  snd (_mip_model s) = inr tt ->
  length cs = length (self_predictor s) /\
  length ls = length (self_predictor s) /\
  match self_output s with
  | Some y => self_output (fst (_mip_model s)) = Some y
  | None => exists lay, last_error ls = Some lay /\
                        self_output (fst (_mip_model s)) = Some (layer_output lay)
  end.
Proof.
  intros Hv Hw He Hr.
  destruct (snd (mip_loop _ _ _ _ s)) as [e|l'] eqn:Er.
  { simpl in He. rewrite Hr in He. discriminate. }
  destruct (walk_complete Hw Hv eq_refl) as [Hc Hl].
  split; [exact Hc|]. split; [exact Hl|].
  pose proof (walk_final Hw eq_refl) as Hf.
  simpl in He. destruct (self_output s) as [y|].
  - now inversion He.
  - destruct (layer l') as [lay|] eqn:El.
    + inversion He. exists lay. split; [|assumption].
      destruct (last_error ls) as [lay'|]; destruct Hf as [Hf _]; simpl in *;
        congruence.
    + rewrite Hr in He. discriminate.
Qed.

(** Under the dimension contract the pass returns, on a validated network
    that is not empty or with an output supplied by the caller. *)
Lemma _mip_model_returns s :
  forallb supported (self_predictor s) = true ->
  well_shaped (length (self_predictor s)) 0 (self_predictor s)
    (shape (self_input s)) None None (self_output s) = true ->
  self_predictor s <> [] \/ self_output s <> None ->
  snd (_mip_model s) = inr tt.
Proof.
  intros Hv Hw Hne.
  destruct (_mip_model_walk s) as (cs & ls & Hwalk & _ & _ & _ & _ & He).
  cbv zeta in Hwalk, He.
  destruct (@mip_loop_returns (self_predictor s) (length (self_predictor s)) 0
              (initial_locals s) s
              eq_refl eq_refl Hw) as (s' & l' & E).
  rewrite E in *. cbn [snd] in *.
  destruct (walk_complete Hwalk Hv eq_refl) as [_ Hl].
  pose proof (walk_final Hwalk eq_refl) as Hf.
  simpl in He. destruct (self_output s) as [y|].
  - now inversion He.
  - destruct Hne as [Hne|Hne]; [|congruence].
    destruct (last_error_length ls) as (lay & Hlast).
    { rewrite Hl. destruct (self_predictor s); [congruence|simpl; lia]. }
    rewrite Hlast in Hf. destruct Hf as [Hf _]. rewrite Hf in He.
    now inversion He.
Qed.

(** C3: in the embedding pass of a validated network the [k]-th encoder
    invocation is the one of layer [k]; its output argument is [None] for
    every layer but the last and the object's [_output] (the caller's
    array, or [None]) for the last.  When the pass returns it has processed
    every layer, and the object's output is the caller's array or, when
    there was none, the output array of the last LayerEmbedding.  The pass
    does return when the network is not empty and meets the encoders'
    dimension contract. *)
Theorem C3_output_argument_and_canonical_output (s : SequentialConstr) :
  forallb supported (self_predictor s) = true ->
  exists cs,
    encoder_calls (fst (_mip_model s)) = encoder_calls s ++ cs /\
    (forall k c, nth_error cs k = Some c ->
       call_name c = str k /\
       call_output c =
         if S k =? length (self_predictor s) then self_output s else None) /\
    (snd (_mip_model s) = inr tt ->
       length cs = length (self_predictor s) /\
       match self_output s with
       | Some y => self_output (fst (_mip_model s)) = Some y
       | None =>
           exists lay,
             last_error (self_layers (fst (_mip_model s))) = Some lay /\
             self_output (fst (_mip_model s)) = Some (layer_output lay)
       end) /\
    (well_shaped (length (self_predictor s)) 0 (self_predictor s)
       (shape (self_input s)) None None (self_output s) = true ->
     self_predictor s <> [] ->
     snd (_mip_model s) = inr tt).
Proof.
  intros Hv.
  destruct (_mip_model_walk s) as (cs & ls & Hwalk & Hc & Hl & _ & _ & He).
  cbv zeta in Hwalk, He.
  exists cs. split; [exact Hc|]. split; [|split].
  - intros k c Hk.
    exact (walk_calls Hwalk Hv eq_refl eq_refl k Hk).
  - intros Hr.
    destruct (_mip_model_inr Hv Hwalk He Hr) as (Hcs & Hls & Ho).
    split; [exact Hcs|].
    destruct (self_output s) as [y|]; [exact Ho|].
    destruct Ho as (lay & Hlast & Ho). exists lay. split; [|exact Ho].
    rewrite Hl. now apply last_error_app.
  - intros Hw Hne. apply _mip_model_returns; auto.
Qed.

End Runs.

(** ** The two passes agree on the layer kinds (section 4.1) *)

Section Dispatch.
Context {N : Numeric}.

Lemma step_call_None numlayers o i step l :
  step_call numlayers o i step l = None <-> supported step = false.
Proof.
  unfold step_call, supported.
  destruct (isinstance_ReLU step); simpl; [split; discriminate|].
  destruct (isinstance_Linear step); [|tauto].
  destruct (bind_parameters _ _ _) as [[w|] [b|]]; split; discriminate.
Qed.

Lemma step_call_kind numlayers o i step l c :
  step_call numlayers o i step l = Some (inr c) ->
  if isinstance_ReLU step
  then c = ActivationCall (_input l) ReLUAct (step_output numlayers o i l) (str i)
  else exists w b,
         bind_parameters (named_parameters step) (layer_weight l) (layer_bias l)
           = (Some w, Some b) /\
         c = DenseCall (_input l) w b Identity (step_output numlayers o i l) (str i).
Proof.
  unfold step_call.
  destruct (isinstance_ReLU step); [intros H; now inversion H|].
  destruct (isinstance_Linear step); [|discriminate].
  destruct (bind_parameters _ _ _) as [[w|] [b|]]; intros H; inversion H.
  eauto.
Qed.

Lemma app_one_neq {A} (l : list A) (a : A) : l ++ [a] <> l.
Proof.
  intros H. apply (f_equal (@length A)) in H. rewrite length_app in H.
  simpl in H. lia.
Qed.

Lemma mip_step_skips numlayers i step l s :
  skips numlayers i step l s <-> supported step = false.
Proof.
  rewrite <- (step_call_None numlayers (self_output s) i step l).
  pose proof (mip_step_cases numlayers i step l s) as H. unfold skips.
  destruct (step_call numlayers (self_output s) i step l) as [[e|c]|].
  - rewrite H. simpl. split; [intros (_ & l' & E)|]; discriminate.
  - destruct H as (s' & Hc & _ & [(H & _) | (lay & H & _)]); rewrite H; simpl;
      (split; [intros (E & _)|discriminate]);
      rewrite Hc in E; now apply app_one_neq in E.
  - rewrite H. simpl. split; eauto.
Qed.

(** The two passes test the same kinds: the validation scan accepts a layer
    exactly when it is an instance of [nn.ReLU] or of [nn.Linear]; an
    iteration of the embedding pass passes over a layer without encoding it
    exactly when it is neither.  So on a network that passed validation no
    iteration skips its layer, and a pass that returns has made, for every
    layer in order, one encoder invocation of the layer's kind and got its
    LayerEmbedding.  A pass that raises has not: see the next theorem. *)
Lemma validation_and_dispatch_agree :
  (forall (predictor : Sequential) (step : Module),
     validate predictor [step] = inr tt <->
     isinstance_ReLU step = true \/ isinstance_Linear step = true) /\
  (forall numlayers i step l s,
     skips numlayers i step l s <->
     isinstance_ReLU step = false /\ isinstance_Linear step = false) /\
  (forall s : SequentialConstr,
     validate (self_predictor s) (self_predictor s) = inr tt ->
     (forall numlayers i step l s',
        In step (self_predictor s) -> ~ skips numlayers i step l s') /\
     (snd (_mip_model s) = inr tt ->
      exists cs ls,
        encoder_calls (fst (_mip_model s)) = encoder_calls s ++ cs /\
        self_layers (fst (_mip_model s)) = self_layers s ++ ls /\
        length cs = length (self_predictor s) /\
        length ls = length (self_predictor s) /\
        forall k step, nth_error (self_predictor s) k = Some step ->
          exists c lay,
            nth_error cs k = Some c /\ nth_error ls k = Some lay /\
            encodes c lay /\
            if isinstance_ReLU step
            then exists x out, c = ActivationCall x ReLUAct out (str k)
            else exists x w b out, c = DenseCall x w b Identity out (str k))).
Proof.
  split; [|split].
  - intros predictor step. rewrite validate_supported. simpl.
    rewrite andb_true_r. unfold supported. apply orb_true_iff.
  - intros. rewrite mip_step_skips. unfold supported. apply orb_false_iff.
  - intros s Hv. apply validate_supported in Hv. split.
    + intros numlayers i step l s' Hin Hs. apply mip_step_skips in Hs.
      rewrite forallb_forall in Hv. rewrite (Hv step Hin) in Hs. discriminate.
    + intros Hr.
      destruct (_mip_model_walk s) as (cs & ls & Hwalk & Hc & Hl & _ & _ & He).
      cbv zeta in Hwalk, He.
      destruct (_mip_model_inr Hv Hwalk He Hr) as (Hcs & Hls & _).
      exists cs, ls. repeat split; auto.
      intros k step Hk.
      assert (Hlt : k < length (self_predictor s)).
      { apply nth_error_Some. congruence. }
      destruct (nth_error cs k) as [c|] eqn:Ec;
        [|apply nth_error_None in Ec; lia].
      destruct (nth_error ls k) as [lay|] eqn:El;
        [|apply nth_error_None in El; lia].
      exists c, lay. split; [reflexivity|]. split; [reflexivity|].
      destruct (walk_encodes Hwalk k El) as (c' & Ec' & Henc).
      assert (c' = c) by congruence. subst c'.
      split; [exact Henc|].
      destruct (walk_dispatch Hwalk Hv k Hk Ec) as (lk & _ & Hcall).
      apply step_call_kind in Hcall. simpl in Hcall.
      destruct (isinstance_ReLU step).
      * eauto.
      * destruct Hcall as (w & b & _ & ->). eauto.
Qed.

(** C8: validation accepts a layer that the embedding pass does not encode.
    The network made of one [nn.Linear] layer without bias passes the
    validation scan; the embedding pass takes the affine branch for it and
    raises on the unbound local [layer_bias] at line 111, before the
    encoder is invoked: no encoder invocation is made and no LayerEmbedding
    is added. *)
Theorem C8_accepted_layer_is_not_encoded
    (gp_model : Model) (input_vars : MVar) (output_vars : option MVar)
    (W : array num) :
  validate [nn_Linear W None] [nn_Linear W None] = inr tt /\
  snd (_mip_model (mkSelf gp_model [nn_Linear W None] input_vars output_vars [] []))
    = inl (UnboundLocalError "layer_bias") /\
  encoder_calls
    (fst (_mip_model (mkSelf gp_model [nn_Linear W None] input_vars output_vars [] [])))
    = [] /\
  self_layers
    (fst (_mip_model (mkSelf gp_model [nn_Linear W None] input_vars output_vars [] [])))
    = [].
Proof.
  repeat split; reflexivity.
Qed.

End Dispatch.

(** ** Parameters handed to the affine encoder *)

Section AffineParameters.
Context {N : Numeric}.

(** With the transposed weight, the equalities of section 4.2 are those of
    the layer in its stored orientation. *)
Lemma affine_transpose (X : MVar) (W : array num) (b : list num) (Y : MVar) :
  wf_array W ->
  affine_constrs X (transpose W) b Y = linear_constrs X W b Y.
Proof.
  intros Hwf. unfold affine_constrs, linear_constrs, map2. f_equal.
  apply map_ext. intros [xr yr]. cbn [fst snd shape transpose].
  apply map_ext_in. intros [[c y] bc] Hin. cbn [fst snd]. f_equal.
  apply in_combine_l, in_combine_l, in_seq in Hin.
  destruct Hwf as [Hlen Hrows].
  destruct (nth_error (rows W) c) as [row|] eqn:Er;
    [|apply nth_error_None in Er; lia].
  rewrite (column_transpose (a := W) c (conj Hlen Hrows) Er).
  now rewrite (nth_error_nth _ _ _ Er).
Qed.

(** The invocation of an affine layer that registers a weight: the
    transposed weight, and the layer's bias when it registers one. *)
Lemma dense_call_parameters numlayers o i step l c Wt :
  step_call numlayers o i step l = Some (inr c) ->
  isinstance_ReLU step = false ->
  get_parameter "weight" (named_parameters step) = Some Wt ->
  exists b,
    c = DenseCall (_input l) (T Wt) b Identity (step_output numlayers o i l) (str i) /\
    forall bt, get_parameter "bias" (named_parameters step) = Some bt -> b = bt.
Proof.
  intros Hc Hr Hw. apply step_call_kind in Hc. rewrite Hr in Hc.
  destruct Hc as (w & b & Hp & ->).
  rewrite bind_parameters_spec, Hw in Hp.
  exists b. split; [congruence|].
  intros bt Hbt. rewrite Hbt in Hp. congruence.
Qed.

(** C6: for an affine layer the encoder is invoked with the transpose of
    the layer's weight parameter, under the identity activation, and with
    the layer's bias parameter as it is.  For a stored weight of shape
    [out, in] the matrix handed over has shape [in, out] and entry [(j, c)]
    equal to the stored entry [(c, j)], and the equalities of the
    LayerEmbedding are [output = input . W^T + bias]: for every row and
    column, [Y[r, c] = sum_j W[c, j] * X[r, j] + b[c]]. *)
Theorem C6_weight_transposed_bias_unchanged
    (s : SequentialConstr) (k : nat) (step : Module) (Wt : tensor)
    (cs : list call) (c : call) :
  forallb supported (self_predictor s) = true ->
  nth_error (self_predictor s) k = Some step ->
  isinstance_ReLU step = false ->
  get_parameter "weight" (named_parameters step) = Some Wt ->
  encoder_calls (fst (_mip_model s)) = encoder_calls s ++ cs ->
  nth_error cs k = Some c ->
  (exists x b out,
     c = DenseCall x (T Wt) b Identity out (str k) /\
     forall bt, get_parameter "bias" (named_parameters step) = Some bt -> b = bt) /\
  (forall W, Wt = Mat W -> wf_array W ->
     T Wt = Mat (transpose W) /\
     shape (transpose W) = (snd (shape W), fst (shape W)) /\
     (forall j i, j < snd (shape W) -> entry (transpose W) j i = entry W i j)) /\
  (forall W b ls lay,
     Wt = Mat W -> wf_array W ->
     get_parameter "bias" (named_parameters step) = Some (Vec b) ->
     self_layers (fst (_mip_model s)) = self_layers s ++ ls ->
     nth_error ls k = Some lay ->
     layer_constrs lay =
       affine_constrs (layer_input lay) (transpose W) b (layer_output lay) /\
     layer_constrs lay = linear_constrs (layer_input lay) W b (layer_output lay)).
Proof.
  intros Hv Hk Hr Hw Hcs Hc.
  destruct (_mip_model_walk s) as (cs' & ls' & Hwalk & Hcs' & Hls' & _).
  cbv zeta in Hwalk.
  assert (cs' = cs) by (rewrite Hcs in Hcs'; now apply app_inv_head in Hcs').
  subst cs'.
  destruct (walk_dispatch Hwalk Hv k Hk Hc) as (lk & _ & Hcall).
  destruct (dense_call_parameters _ _ _ _ _ Hcall Hr Hw) as (b0 & Ec & Hb0).
  simpl in Ec.
  split; [rewrite Ec; eauto|]. split.
  - intros W -> Hwf. split; [reflexivity|]. now apply transpose_entry.
  - intros W b ls lay -> Hwf Hb Hls Hlay.
    assert (ls' = ls) by (rewrite Hls in Hls'; now apply app_inv_head in Hls').
    subst ls'.
    destruct (walk_encodes Hwalk k Hlay) as (c' & Hc' & Henc).
    assert (c' = c) by congruence. subst c'.
    destruct Henc as (_ & Hin & _ & Hcon).
    rewrite (Hb0 _ Hb) in Ec.
    rewrite Ec in Hcon, Hin. simpl in Hcon, Hin. inversion Hcon as [E].
    rewrite Hin. split; [reflexivity|].
    now apply affine_transpose.
Qed.

End AffineParameters.

(** ** Affine layers without a bias *)

Section BiasFree.
Context {N : Numeric}.

(** Activation layers before the last one are encoded on a fresh output
    array; the loop over them returns and leaves the parameter locals as
    they were. *)
Lemma relu_prefix_returns pre : forall numlayers i l s,
  forallb isinstance_ReLU pre = true ->
  i + length pre < numlayers ->
  output l = None ->
  exists s' l',
    mip_loop numlayers i pre l s = (s', inr l') /\
    layer_weight l' = layer_weight l /\ layer_bias l' = layer_bias l /\
    output l' = None.
Proof.
  induction pre as [|step pre IH]; intros numlayers i l s Hr Hn Ho.
  - exists s, l. auto.
  - simpl in Hr, Hn. apply andb_prop in Hr. destruct Hr as [Hs Hr].
    simpl mip_loop. unfold bind. rewrite mip_step_eq. cbv zeta.
    rewrite Hs, step_output_nat, Ho.
    destruct (Nat.eqb_spec (S i) numlayers) as [E|_]; [lia|].
    destruct (add_activation_layer_returns (_input l) ReLUAct None (str i) s eq_refl)
      as (s1 & lay & E & _).
    rewrite E.
    destruct (IH numlayers (S i)
                (step_locals numlayers (self_output s) i step l (Some lay)) s1 Hr)
      as (s' & l' & El & Hw & Hb & Ho').
    + lia.
    + simpl. rewrite step_output_nat, Ho.
      now destruct (Nat.eqb_spec (S i) numlayers); [lia|].
    + exists s', l'. split; [exact El|].
      simpl in Hw, Hb. unfold step_params in Hw, Hb. rewrite Hs in Hw, Hb.
      auto.
Qed.

Lemma params_after_app pre : forall rest lw lb,
  params_after (pre ++ rest) lw lb =
  params_after rest (fst (params_after pre lw lb)) (snd (params_after pre lw lb)).
Proof.
  induction pre as [|step pre IH]; intros; simpl; [reflexivity|apply IH].
Qed.

Lemma params_after_keeps_bias mid : forall lw lb,
  forallb (fun m => negb (binds_bias m)) mid = true ->
  snd (params_after mid lw lb) = lb.
Proof.
  induction mid as [|step mid IH]; intros lw lb H; simpl in *; [reflexivity|].
  apply andb_prop in H. destruct H as [Hs H].
  rewrite (IH _ _ H). unfold step_params, binds_bias in *.
  destruct (isinstance_ReLU step); [reflexivity|].
  destruct (isinstance_Linear step); [|reflexivity].
  rewrite bind_parameters_spec. simpl in *.
  now destruct (get_parameter "bias" (named_parameters step)).
Qed.

(** C9: an affine layer is encoded with whatever the locals [layer_weight]
    and [layer_bias] hold after the loop over its named parameters.  When
    the first affine layer of the network registers no bias, the pass
    raises on reading the unbound local [layer_bias].  When a bias-free
    affine layer comes after one that registered a bias, its encoder
    invocation receives the bias of that earlier layer, the last one bound,
    and the equalities of its LayerEmbedding are built with it. *)
Theorem C9_bias_free_linear_layers :
  (forall (s : SequentialConstr) pre L post W,
     self_predictor s = pre ++ L :: post ->
     forallb isinstance_ReLU pre = true ->
     isinstance_ReLU L = false -> isinstance_Linear L = true ->
     get_parameter "weight" (named_parameters L) = Some W ->
     get_parameter "bias" (named_parameters L) = None ->
     snd (_mip_model s) = inl (UnboundLocalError "layer_bias")) /\
  (forall (s : SequentialConstr) pre L1 mid L2 post b1 W2 cs c,
     self_predictor s = pre ++ L1 :: mid ++ L2 :: post ->
     forallb supported (self_predictor s) = true ->
     isinstance_ReLU L1 = false -> isinstance_Linear L1 = true ->
     get_parameter "bias" (named_parameters L1) = Some b1 ->
     forallb (fun m => negb (binds_bias m)) mid = true ->
     isinstance_ReLU L2 = false ->
     get_parameter "weight" (named_parameters L2) = Some W2 ->
     get_parameter "bias" (named_parameters L2) = None ->
     encoder_calls (fst (_mip_model s)) = encoder_calls s ++ cs ->
     nth_error cs (length pre + 1 + length mid) = Some c ->
     exists x out,
       c = DenseCall x (T W2) b1 Identity out (str (length pre + 1 + length mid)) /\
       forall ls lay,
         self_layers (fst (_mip_model s)) = self_layers s ++ ls ->
         nth_error ls (length pre + 1 + length mid) = Some lay ->
         exists W' bv,
           T W2 = Mat W' /\ b1 = Vec bv /\
           layer_constrs lay = affine_constrs x W' bv (layer_output lay)).
Proof.
  split.
  - intros s pre L post W Hnet Hpre Hr Hl Hw Hb.
    unfold _mip_model, bind, gets. rewrite Hnet, mip_loop_app.
    destruct (@relu_prefix_returns pre (length (pre ++ L :: post)) 0
                {| _input := self_input s; output := None; layer := None;
                   layer_weight := None; layer_bias := None |} s Hpre)
      as (s' & l' & E & Hlw & Hlb & _).
    + rewrite length_app. simpl. lia.
    + reflexivity.
    + rewrite E. simpl mip_loop. unfold bind. rewrite mip_step_eq. cbv zeta.
      rewrite Hr, Hl, bind_parameters_spec, Hw, Hb, Hlb. reflexivity.
  - intros s pre L1 mid L2 post b1 W2 cs c Hnet Hv Hr1 Hl1 Hb1 Hmid Hr2 Hw2 Hb2 Hcs Hc.
    set (k := length pre + 1 + length mid) in *.
    destruct (_mip_model_walk s) as (cs' & ls' & Hwalk & Hcs' & Hls' & _).
    cbv zeta in Hwalk.
    assert (cs' = cs) by (rewrite Hcs in Hcs'; now apply app_inv_head in Hcs').
    subst cs'.
    assert (Hsplit : self_predictor s = (pre ++ L1 :: mid) ++ L2 :: post).
    { rewrite Hnet. now rewrite <- app_assoc. }
    assert (Hklen : length (pre ++ L1 :: mid) = k).
    { rewrite length_app. simpl. unfold k. lia. }
    assert (Hk : nth_error (self_predictor s) k = Some L2).
    { rewrite Hsplit, nth_error_app2 by lia. now rewrite Hklen, Nat.sub_diag. }
    destruct (walk_dispatch Hwalk Hv k Hk Hc) as (lk & Hp & Hcall).
    assert (Hbias : layer_bias lk = Some b1).
    { apply (f_equal snd) in Hp. simpl in Hp. rewrite Hp, Hsplit.
      rewrite firstn_app, Hklen, Nat.sub_diag, firstn_all2 by lia.
      simpl. rewrite app_nil_r, params_after_app. simpl.
      rewrite params_after_keeps_bias by exact Hmid.
      unfold step_params. rewrite Hr1, Hl1, bind_parameters_spec, Hb1.
      reflexivity. }
    apply step_call_kind in Hcall. rewrite Hr2 in Hcall.
    destruct Hcall as (w & b & Hbp & Ec).
    rewrite bind_parameters_spec, Hw2, Hb2, Hbias in Hbp. inversion Hbp; subst w b.
    simpl in Ec. eexists _, _. split; [exact Ec|].
    intros ls lay Hls Hlay.
    assert (ls' = ls) by (rewrite Hls in Hls'; now apply app_inv_head in Hls').
    subst ls'.
    destruct (walk_encodes Hwalk k Hlay) as (c' & Hc' & Henc).
    assert (c' = c) by congruence. subst c'.
    destruct Henc as (_ & _ & _ & Hcon). rewrite Ec in Hcon. simpl in Hcon.
    destruct (T W2) as [v|W']; [discriminate|].
    destruct b1 as [bv|bm]; [|discriminate].
    exists W', bv. inversion Hcon. auto.
Qed.

(** C2: on the network made of one [nn.Linear] layer without bias, which
    passes validation, the constructor raises on the unbound local
    [layer_bias] instead of returning an embedding; the solver model is as
    it was. *)
Theorem C2_bias_free_linear_raises
    (gp_model : Model) (input_vars : MVar) (output_vars : option MVar)
    (W : array num) :
  validate [nn_Linear W None] [nn_Linear W None] = inr tt /\
  add_sequential_constr gp_model [nn_Linear W None] input_vars output_vars =
  (gp_model, inl (UnboundLocalError "layer_bias")).
Proof.
  split; reflexivity.
Qed.

End BiasFree.

(** ** The chain of LayerEmbeddings (section 3) *)

Section Chain.
Context {N : Numeric}.

(** On a validated, non-empty network that meets the encoders' dimension
    contract the constructor returns an embedding with one LayerEmbedding
    per layer: the first reads the caller's input array, each next one the
    output array of its predecessor, and the output of the last is the
    object's output (the caller's, when one was supplied). *)
Theorem embedding_chain
    (gp_model : Model) (net : Sequential) (input_vars : MVar)
    (output_vars : option MVar) :
  forallb supported net = true ->
  net <> [] ->
  well_shaped (length net) 0 net (shape input_vars) None None output_vars = true ->
  exists obj,
    add_sequential_constr gp_model net input_vars output_vars =
      (self_gp_model obj, inr obj) /\
    self_predictor obj = net /\
    self_input obj = input_vars /\
    length (self_layers obj) = length net /\
    (forall lay, nth_error (self_layers obj) 0 = Some lay ->
                 layer_input lay = input_vars) /\
    (forall k a b,
       nth_error (self_layers obj) k = Some a ->
       nth_error (self_layers obj) (S k) = Some b ->
       layer_input b = layer_output a) /\
    (exists lay, last_error (self_layers obj) = Some lay /\
                 self_output obj = Some (layer_output lay)) /\
    (forall y, output_vars = Some y -> self_output obj = Some y).
Proof.
  intros Hv Hne Hw.
  set (s0 := mkSelf gp_model net input_vars output_vars [] []).
  rewrite (@init_validated N gp_model net input_vars output_vars Hv). cbv zeta.
  fold s0.
  assert (Hr : snd (_mip_model s0) = inr tt).
  { apply _mip_model_returns; simpl; auto. }
  destruct (_mip_model_walk s0) as (cs & ls & Hwalk & Hc & Hl & Hp & Hi & He).
  cbv zeta in Hwalk, He.
  destruct (_mip_model_inr (s := s0) Hv Hwalk He Hr) as (Hcs & Hls & Ho).
  simpl in Hl, Hp, Hi, Hcs, Hls, Ho.
  destruct (walk_chain Hwalk) as [Hfirst Hnext].
  exists (fst (_mip_model s0)). rewrite Hr, Hl, Hp, Hi.
  repeat split; auto.
  - destruct output_vars as [y|].
    + destruct (last_error_length ls) as (lay & Hlast).
      { rewrite Hls. destruct net; [congruence|simpl; lia]. }
      exists lay. split; [exact Hlast|]. rewrite Ho. f_equal. symmetry.
      assert (Hk : nth_error ls (length net - 1) = Some lay).
      { rewrite <- Hls. now apply last_error_nth. }
      destruct (walk_encodes Hwalk _ Hk) as (c & Hc' & _ & _ & Hout & _).
      apply Hout.
      destruct (walk_calls Hwalk Hv eq_refl eq_refl _ Hc') as [_ Hco].
      change (self_predictor s0) with net in Hco.
      change (self_output s0) with (Some y) in Hco.
      assert (E : S (length net - 1) = length net).
      { destruct net; [congruence|simpl; lia]. }
      now rewrite E, Nat.eqb_refl in Hco.
    + exact Ho.
  - intros y ->. exact Ho.
Qed.

End Chain.

(** ** The definitions run on the concrete inputs *)

(** [Linear(2, 3)] then [ReLU()] on a one-row input: three variables and
    three equalities for the affine layer, three variables and three
    rectified-linear constraints for the activation. *)
Example net_ok_model :
  fst (add_sequential_constr Ex.gp Ex.net_ok Ex.x None) =
  {| NumVars := 8;
     Constrs := [LinEq 2 [(1%Z, 0); (2%Z, 1)] 10%Z;
                 LinEq 3 [(3%Z, 0); (4%Z, 1)] 20%Z;
                 LinEq 4 [(5%Z, 0); (6%Z, 1)] 30%Z;
                 ReluEq 5 2; ReluEq 6 3; ReluEq 7 4];
     State := NotOptimized |}.
Proof. reflexivity. Qed.

Example net_ok_arrays :
  map layer_input (self_layers Ex.obj_ok) =
    [Ex.x; {| shape := (1, 3); rows := [[2; 3; 4]] |}] /\
  map layer_output (self_layers Ex.obj_ok) =
    [{| shape := (1, 3); rows := [[2; 3; 4]] |}; Ex.out_ok_vars] /\
  self_output Ex.obj_ok = Some Ex.out_ok_vars.
Proof. repeat split; reflexivity. Qed.

(** The third layer of [net_stale] has no bias; its equalities carry the
    constants 10, 20, 30 of the first layer's bias. *)
Example net_stale_constraints :
  skipn 6 (Constrs (fst (add_sequential_constr Ex.gp Ex.net_stale Ex.x None))) =
  [LinEq 8 [(1%Z, 5); (0%Z, 6); (0%Z, 7)] 10%Z;
   LinEq 9 [(0%Z, 5); (1%Z, 6); (0%Z, 7)] 20%Z;
   LinEq 10 [(0%Z, 5); (0%Z, 6); (1%Z, 7)] 30%Z].
Proof. reflexivity. Qed.

(** The empty network with an output supplied by the caller: the
    constructor returns an embedding without any LayerEmbedding, whose
    output is unrelated to its input. *)
Example empty_network_with_output :
  fst (add_sequential_constr Ex.gp [] Ex.x (Some Ex.out_ok_vars)) = Ex.gp /\
  match snd (add_sequential_constr Ex.gp [] Ex.x (Some Ex.out_ok_vars)) with
  | inr obj => self_layers obj = [] /\ encoder_calls obj = [] /\
               self_output obj = Some Ex.out_ok_vars
  | inl _ => False
  end.
Proof. repeat split; reflexivity. Qed.

Example get_error_before_solving :
  snd (get_error Ex.obj_ok) = inl NoSolution.
Proof. reflexivity. Qed.

Example get_error_after_solving :
  snd (get_error Ex.solved) = inr (Mat {| shape := (1, 3); rows := [[0; 0; 0]]%Z |}).
Proof. reflexivity. Qed.

(** ** The theorems on the concrete inputs *)

Lemma C3_witness :
  forallb supported (self_predictor (Ex.self0 Ex.net_ok None)) = true /\
  exists cs,
    encoder_calls (fst (_mip_model (Ex.self0 Ex.net_ok None))) =
      encoder_calls (Ex.self0 Ex.net_ok None) ++ cs /\
    (forall k c, nth_error cs k = Some c ->
       call_name c = str k /\
       call_output c =
         if S k =? length (self_predictor (Ex.self0 Ex.net_ok None))
         then self_output (Ex.self0 Ex.net_ok None) else None) /\
    (snd (_mip_model (Ex.self0 Ex.net_ok None)) = inr tt ->
       length cs = length (self_predictor (Ex.self0 Ex.net_ok None)) /\
       match self_output (Ex.self0 Ex.net_ok None) with
       | Some y => self_output (fst (_mip_model (Ex.self0 Ex.net_ok None))) = Some y
       | None =>
           exists lay,
             last_error (self_layers (fst (_mip_model (Ex.self0 Ex.net_ok None))))
               = Some lay /\
             self_output (fst (_mip_model (Ex.self0 Ex.net_ok None)))
               = Some (layer_output lay)
       end) /\
    (well_shaped (length (self_predictor (Ex.self0 Ex.net_ok None))) 0
       (self_predictor (Ex.self0 Ex.net_ok None))
       (shape (self_input (Ex.self0 Ex.net_ok None))) None None
       (self_output (Ex.self0 Ex.net_ok None)) = true ->
     self_predictor (Ex.self0 Ex.net_ok None) <> [] ->
     snd (_mip_model (Ex.self0 Ex.net_ok None)) = inr tt).
Proof.
  split; [reflexivity|].
  apply (C3_output_argument_and_canonical_output (Ex.self0 Ex.net_ok None)).
  reflexivity.
Defined.

Lemma C4_witness :
  State (self_gp_model Ex.solved) = Solved Ex.sol /\
  snd (get_error Ex.solved) <> inl NoSolution.
Proof.
  split; [reflexivity|].
  apply (proj2 (C4_NoSolution_iff_no_solution Ex.solved) Ex.sol).
  reflexivity.
Defined.

Lemma C5_witness :
  State (self_gp_model Ex.solved) = Solved Ex.sol /\
  self_output Ex.solved = Some Ex.out_ok_vars /\
  Sequential_forward (self_predictor Ex.solved)
    (to_float (Mat (array_map Ex.sol (self_input Ex.solved))))
    = Some (Mat Ex.out_ok_values) /\
  snd (get_error Ex.solved) = inr (Mat (zeros (1, 3))).
Proof.
  assert (Hs : State (self_gp_model Ex.solved) = Solved Ex.sol) by reflexivity.
  assert (Ho : self_output Ex.solved = Some Ex.out_ok_vars) by reflexivity.
  assert (Hf : Sequential_forward (self_predictor Ex.solved)
                 (to_float (Mat (array_map Ex.sol (self_input Ex.solved))))
               = Some (Mat Ex.out_ok_values)) by reflexivity.
  assert (Hwo : wf_array Ex.out_ok_vars).
  { split; [reflexivity|]. repeat constructor. }
  assert (Hwm : wf_array Ex.out_ok_values).
  { split; [reflexivity|]. repeat constructor. }
  split; [exact Hs|]. split; [exact Ho|]. split; [exact Hf|].
  apply (proj2 (C5_get_error_is_forward_minus_output
                  Ex.solved Hs Ho Hwo Hf Hwm eq_refl)).
  - intros v. apply Z.sub_diag.
  - reflexivity.
Defined.

Lemma C6_witness :
  nth_error (encoder_calls (fst (_mip_model (Ex.self0 Ex.net_ok None)))) 0 =
    Some Ex.call1 /\
  exists x b out,
    Ex.call1 = DenseCall x (T Ex.weight1) b Identity out (str 0) /\
    forall bt, get_parameter "bias" (named_parameters Ex.linear1) = Some bt -> b = bt.
Proof.
  assert (Hc : nth_error (encoder_calls (fst (_mip_model (Ex.self0 Ex.net_ok None)))) 0 =
               Some Ex.call1) by reflexivity.
  split; [exact Hc|].
  apply (@C6_weight_transposed_bias_unchanged ZNumeric
           (Ex.self0 Ex.net_ok None) 0 Ex.linear1 Ex.weight1
           (encoder_calls (fst (_mip_model (Ex.self0 Ex.net_ok None)))) Ex.call1
           eq_refl eq_refl eq_refl eq_refl eq_refl Hc).
Defined.

Lemma validation_and_dispatch_agree_on_net_ok :
  validate Ex.net_ok Ex.net_ok = inr tt /\
  exists cs ls,
    encoder_calls (fst (_mip_model (Ex.self0 Ex.net_ok None))) = [] ++ cs /\
    self_layers (fst (_mip_model (Ex.self0 Ex.net_ok None))) = [] ++ ls /\
    length cs = 2 /\ length ls = 2.
Proof.
  split; [reflexivity|].
  destruct (proj2 (proj2 (proj2 validation_and_dispatch_agree)
                     (Ex.self0 Ex.net_ok None) eq_refl) eq_refl)
    as (cs & ls & Hc & Hl & Hcs & Hls & _).
  exists cs, ls. auto.
Defined.

Lemma C9_witness :
  snd (_mip_model (Ex.self0 Ex.net_nobias None)) =
    inl (UnboundLocalError "layer_bias") /\
  exists x out,
    nth_error (encoder_calls (fst (_mip_model (Ex.self0 Ex.net_stale None)))) 2 =
    Some (DenseCall x (T Ex.weight2) Ex.bias1 Identity out (str 2)).
Proof.
  split.
  - apply (proj1 C9_bias_free_linear_layers (Ex.self0 Ex.net_nobias None)
             [] Ex.linear1_nobias [] Ex.weight1);
      reflexivity.
  - assert (Hc : exists c,
               nth_error (encoder_calls (fst (_mip_model (Ex.self0 Ex.net_stale None)))) 2
               = Some c).
    { eexists. reflexivity. }
    destruct Hc as (c & Hc). rewrite Hc.
    destruct (proj2 C9_bias_free_linear_layers (Ex.self0 Ex.net_stale None)
                [] Ex.linear1 [nn_ReLU] Ex.linear2_nobias []
                Ex.bias1 Ex.weight2
                (encoder_calls (fst (_mip_model (Ex.self0 Ex.net_stale None)))) c
                eq_refl eq_refl eq_refl eq_refl eq_refl eq_refl eq_refl eq_refl
                eq_refl eq_refl Hc)
      as (x & out & E & _).
    exists x, out. now rewrite E.
Defined.

(** ** How the constructor ends *)

Section Outcomes.
Context {N : Numeric}.

Lemma forallb_false_In {A} (f : A -> bool) (l : list A) :
  forallb f l = false -> exists a, In a l /\ f a = false.
Proof.
  induction l as [|a l IH]; simpl; [discriminate|].
  destruct (f a) eqn:E; simpl; intros H.
  - destruct (IH H) as (b & Hb & Hf). eauto.
  - eauto.
Qed.

(** A walk ends on a dimension mismatch or on one of the two parameter
    locals being unbound, when it does not return. *)
Lemma walk_exn numlayers o i steps l cs ls r :
  walk numlayers o i steps l cs ls r ->
  forall e, r = inl e ->
  e = DimensionMismatch \/
  e = UnboundLocalError "layer_weight" \/ e = UnboundLocalError "layer_bias".
Proof.
  induction 1; intros e' Hr; try discriminate; auto.
  - inversion Hr; subst. unfold step_call in H.
    destruct (isinstance_ReLU step); [discriminate|].
    destruct (isinstance_Linear step); [|discriminate].
    destruct (bind_parameters _ _ _) as [[w|] [b|]]; inversion H; auto.
  - inversion Hr; auto.
Qed.

(** The ways the constructor can end. *)
Lemma constructor_cases
    (gp_model : Model) (net : Sequential) (input_vars : MVar)
    (output_vars : option MVar) :
  match add_sequential_constr gp_model net input_vars output_vars with
  | (g, inl (NoModel p _)) =>
      p = net /\ g = gp_model /\ forallb supported net = false
  | (_, inl (UnboundLocalError name)) =>
      forallb supported net = true /\
      (name = "layer" /\ net = [] /\ output_vars = None \/
       name = "layer_weight" \/ name = "layer_bias")
  | (_, inl DimensionMismatch) => forallb supported net = true
  | (_, inl _) => False
  | (g, inr obj) =>
      forallb supported net = true /\ g = self_gp_model obj /\
      (net <> [] \/ output_vars <> None)
  end.
Proof.
  destruct (forallb supported net) eqn:Hv.
  - rewrite (@init_validated N gp_model net input_vars output_vars Hv). cbv zeta.
    set (s0 := mkSelf gp_model net input_vars output_vars [] []).
    destruct (_mip_model_walk s0) as (cs & ls & Hwalk & _ & _ & _ & _ & He).
    cbv zeta in Hwalk, He.
    change (self_predictor s0) with net in *.
    change (self_output s0) with output_vars in *.
    destruct (snd (mip_loop (length net) 0 net (initial_locals s0) s0))
      as [e|l'] eqn:Er.
    + simpl in He. apply pair_equal_spec in He. destruct He as [He1 He2]. rewrite He1.
      destruct (walk_exn Hwalk eq_refl) as [->|[->| ->]]; auto.
    + destruct (walk_complete Hwalk Hv eq_refl) as [_ Hl].
      pose proof (walk_final Hwalk eq_refl) as Hf.
      simpl in He. destruct output_vars as [y|].
      * apply pair_equal_spec in He. destruct He as [He1 He2]. rewrite He1.
        repeat split; auto. right. discriminate.
      * destruct (layer l') as [lay|] eqn:El.
        -- apply pair_equal_spec in He. destruct He as [He1 He2]. rewrite He1.
           repeat split; auto. left. intros ->.
           simpl in Hl. destruct ls; [|discriminate]. simpl in Hf.
           destruct Hf as [Hf _]. discriminate.
        -- apply pair_equal_spec in He. destruct He as [He1 He2]. rewrite He1.
           split; [reflexivity|]. left. repeat split; auto.
           destruct net as [|m net']; [reflexivity|].
           destruct (last_error_length ls) as (lay & Hlast);
             [rewrite Hl; simpl; lia|].
           rewrite Hlast in Hf. destruct Hf as [Hf _]. congruence.
  - destruct (forallb_false_In _ _ Hv) as (step & Hin & Hs).
    unfold supported in Hs. apply orb_false_elim in Hs. destruct Hs as [Hr Hl].
    destruct (validate_unsupported net net (ex_intro _ step (conj Hin (conj Hr Hl))))
      as (pre & step' & post & _ & _ & _ & _ & E).
    unfold add_sequential_constr, SequentialConstr__init__. rewrite E. auto.
Qed.

(** X1: the constructor raises [NoModel] exactly on the networks with a
    layer of neither kind, and then hands back the solver model untouched.
    On the others it returns the embedding, or raises on an unbound local
    ([layer] only for the empty network without output) or on a dimension
    mismatch; an object is never returned for the empty network without
    output. *)
Theorem constructor_outcomes
    (gp_model : Model) (net : Sequential) (input_vars : MVar)
    (output_vars : option MVar) :
  ((exists p reason,
      snd (add_sequential_constr gp_model net input_vars output_vars) =
      inl (NoModel p reason)) <->
   (exists step, In step net /\
                 isinstance_ReLU step = false /\ isinstance_Linear step = false)) /\
  match add_sequential_constr gp_model net input_vars output_vars with
  | (g, inl (NoModel p _)) =>
      p = net /\ g = gp_model /\ forallb supported net = false
  | (_, inl (UnboundLocalError name)) =>
      forallb supported net = true /\
      (name = "layer" /\ net = [] /\ output_vars = None \/
       name = "layer_weight" \/ name = "layer_bias")
  | (_, inl DimensionMismatch) => forallb supported net = true
  | (_, inl _) => False
  | (g, inr obj) =>
      forallb supported net = true /\ g = self_gp_model obj /\
      (net <> [] \/ output_vars <> None)
  end.
Proof.
  split; [|apply constructor_cases].
  pose proof (constructor_cases gp_model net input_vars output_vars) as H.
  split.
  - intros (p & reason & E).
    destruct (add_sequential_constr gp_model net input_vars output_vars)
      as [g [e|obj]]; simpl in E; [|discriminate].
    inversion E; subst e. destruct H as (_ & _ & Hv).
    destruct (forallb_false_In _ _ Hv) as (step & Hin & Hs).
    unfold supported in Hs. apply orb_false_elim in Hs. exists step. tauto.
  - intros (step & Hin & Hr & Hl).
    assert (Hv : forallb supported net = false).
    { destruct (forallb supported net) eqn:Hv; [|reflexivity].
      rewrite forallb_forall in Hv. specialize (Hv step Hin).
      unfold supported in Hv. rewrite Hr, Hl in Hv. discriminate. }
    destruct (add_sequential_constr gp_model net input_vars output_vars)
      as [g [e|obj]]; simpl.
    + destruct e; try (destruct H; congruence); try contradiction;
        try congruence; eauto.
    + destruct H; congruence.
Qed.

(** X7: when the first layer to take the affine branch registers no
    parameter named weight (as an [nn.Linear] under [weight_norm] does),
    the pass raises on the unbound local [layer_weight], whether or not the
    layer registers a bias: the weight argument is evaluated first
    (line 110). *)
Theorem unbound_weight_raises
    (s : SequentialConstr) (pre : list Module) (L : Module) (post : list Module) :
  self_predictor s = pre ++ L :: post ->
  forallb isinstance_ReLU pre = true ->
  isinstance_ReLU L = false -> isinstance_Linear L = true ->
  get_parameter "weight" (named_parameters L) = None ->
  snd (_mip_model s) = inl (UnboundLocalError "layer_weight").
Proof.
  intros Hnet Hpre Hr Hl Hw.
  unfold _mip_model, bind, gets. rewrite Hnet, mip_loop_app.
  destruct (@relu_prefix_returns N pre (length (pre ++ L :: post)) 0
              {| _input := self_input s; output := None; layer := None;
                 layer_weight := None; layer_bias := None |} s Hpre)
    as (s' & l' & E & Hlw & Hlb & _).
  - rewrite length_app. simpl. lia.
  - reflexivity.
  - rewrite E. simpl mip_loop. unfold bind. rewrite mip_step_eq. cbv zeta.
    rewrite Hr, Hl, bind_parameters_spec, Hw, Hlw. simpl.
    now destruct (get_parameter "bias" (named_parameters L)).
Qed.

End Outcomes.

(** ** What the pass adds to the solver model *)

Section AppendOnly.
Context {N : Numeric}.

Lemma added_refl s : added s s [].
Proof.
  unfold added. simpl. now rewrite !app_nil_r.
Qed.

Lemma added_trans s1 s2 s3 l1 l2 :
  added s1 s2 l1 -> added s2 s3 l2 -> added s1 s3 (l1 ++ l2).
Proof.
  unfold added. intros [L1 C1] [L2 C2].
  rewrite L2, L1, C2, C1, map_app, concat_app, !app_assoc. auto.
Qed.

Lemma output_array_added o sh s :
  added s (fst (output_array o sh s)) [].
Proof.
  destruct o as [Y|]; simpl.
  - apply added_refl.
  - unfold added. simpl. now rewrite !app_nil_r.
Qed.

Lemma add_activation_layer_added x act o name s :
  exists ls, added s (fst (add_activation_layer x act o name s)) ls.
Proof.
  unfold add_activation_layer, bind, modify, ret, addConstrs.
  pose proof (output_array_added o (shape x)
                (log_call (ActivationCall x act o name) s)) as H.
  destruct (output_array o (shape x) (log_call (ActivationCall x act o name) s))
    as [s' [e|Y]]; simpl in *.
  - exists []. exact H.
  - exists [{| layer_name := name; layer_input := x; layer_output := Y;
               layer_constrs := activation_constrs act x Y |}].
    destruct H as [L C]. unfold added. simpl in *.
    rewrite L, C, !app_nil_r. auto.
Qed.

Lemma add_dense_layer_added x w b o name s :
  exists ls, added s (fst (add_dense_layer x w b Identity o name s)) ls.
Proof.
  unfold add_dense_layer. unfold bind at 1. unfold modify at 1.
  assert (Hnone : exists ls,
             added s (log_call (DenseCall x w b Identity o name) s) ls).
  { exists []. unfold added. simpl. now rewrite !app_nil_r. }
  destruct w as [v|W]; [exact Hnone|].
  destruct b as [bv|bm]; [|exact Hnone].
  destruct ((snd (shape x) =? fst (shape W)) && (length bv =? snd (shape W)));
    [|exact Hnone].
  unfold bind, modify, ret, addConstrs.
  pose proof (output_array_added o (fst (shape x), snd (shape W))
                (log_call (DenseCall x (Mat W) (Vec bv) Identity o name) s)) as H.
  destruct (output_array o (fst (shape x), snd (shape W))
              (log_call (DenseCall x (Mat W) (Vec bv) Identity o name) s))
    as [s' [e|Y]]; simpl in *.
  - exists []. exact H.
  - exists [{| layer_name := name; layer_input := x; layer_output := Y;
               layer_constrs := affine_constrs x W bv Y |}].
    destruct H as [L C]. unfold added. simpl in *.
    rewrite L, C, !app_nil_r. auto.
Qed.

Lemma mip_step_added numlayers i step l s :
  exists ls, added s (fst (mip_step numlayers i step l s)) ls.
Proof.
  rewrite mip_step_eq. cbv zeta.
  destruct (isinstance_ReLU step).
  - destruct (add_activation_layer_added (_input l) ReLUAct
                (step_output numlayers (self_output s) i l) (str i) s) as (ls & H).
    exists ls. now destruct (add_activation_layer _ _ _ _ s) as [s' [e|lay]].
  - destruct (isinstance_Linear step); [|exists []; apply added_refl].
    destruct (bind_parameters _ _ _) as [[w|] [b|]];
      try (exists []; apply added_refl).
    destruct (add_dense_layer_added (_input l) w b
                (step_output numlayers (self_output s) i l) (str i) s) as (ls & H).
    exists ls. now destruct (add_dense_layer _ _ _ _ _ _ s) as [s' [e|lay]].
Qed.

Lemma mip_loop_added steps : forall numlayers i l s,
  exists ls, added s (fst (mip_loop numlayers i steps l s)) ls.
Proof.
  induction steps as [|step rest IH]; intros numlayers i l s.
  - exists []. apply added_refl.
  - simpl mip_loop. unfold bind.
    destruct (mip_step_added numlayers i step l s) as (l1 & H1).
    destruct (mip_step numlayers i step l s) as [s1 [e|l']]; simpl in H1.
    + exists l1. exact H1.
    + destruct (IH numlayers (S i) l' s1) as (l2 & H2).
      exists (l1 ++ l2). now apply added_trans with s1.
Qed.

(** X5: the pass only appends.  Whether it returns or raises, it leaves the
    network, the input array and the solve state as they were, keeps an
    output array the caller supplied, never lowers the number of variables,
    and keeps the earlier invocations, LayerEmbeddings and constraints as a
    prefix; the constraints it adds to the model are exactly those of the
    LayerEmbeddings it adds, in their order. *)
Theorem mip_model_appends_only (s : SequentialConstr) :
  self_predictor (fst (_mip_model s)) = self_predictor s /\
  self_input (fst (_mip_model s)) = self_input s /\
  (forall y, self_output s = Some y -> self_output (fst (_mip_model s)) = Some y) /\
  State (self_gp_model (fst (_mip_model s))) = State (self_gp_model s) /\
  NumVars (self_gp_model s) <= NumVars (self_gp_model (fst (_mip_model s))) /\
  exists cs ls,
    encoder_calls (fst (_mip_model s)) = encoder_calls s ++ cs /\
    self_layers (fst (_mip_model s)) = self_layers s ++ ls /\
    Constrs (self_gp_model (fst (_mip_model s))) =
      Constrs (self_gp_model s) ++ concat (map layer_constrs ls).
Proof.
  set (l0 := {| _input := self_input s; output := None; layer := None;
                layer_weight := None; layer_bias := None |}).
  destruct (mip_loop_walk (self_predictor s) (length (self_predictor s)) 0 l0 s)
    as (cs & ls' & _ & Hc & _ & (P & I & O & S & V & _)).
  destruct (mip_loop_added (self_predictor s) (length (self_predictor s)) 0 l0 s)
    as (ls & [Hl HC]).
  unfold _mip_model, bind, gets. fold l0.
  destruct (mip_loop (length (self_predictor s)) 0 (self_predictor s) l0 s)
    as [s1 [e|l']]; simpl in *.
  - repeat split; auto; try congruence. eauto.
  - destruct (self_output s1) as [y|] eqn:Eo; simpl.
    + repeat split; auto; try congruence. eauto.
    + destruct (layer l') as [lay|]; simpl;
        (repeat split; auto; try congruence; eauto).
Qed.

End AppendOnly.

(** ** The embedding the constructor returns *)

Section Returned.
Context {N : Numeric}.

(** A returned object is the state the embedding pass left, on a network
    that passed validation. *)
Lemma returned_run gp_model net input_vars output_vars g obj :
  add_sequential_constr gp_model net input_vars output_vars = (g, inr obj) ->
  forallb supported net = true /\
  obj = fst (_mip_model (mkSelf gp_model net input_vars output_vars [] [])) /\
  g = self_gp_model obj /\
  snd (_mip_model (mkSelf gp_model net input_vars output_vars [] [])) = inr tt.
Proof.
  intros H.
  pose proof (constructor_cases gp_model net input_vars output_vars) as Ho.
  rewrite H in Ho. destruct Ho as (Hv & _ & _).
  rewrite (@init_validated N gp_model net input_vars output_vars Hv) in H.
  cbv zeta in H.
  destruct (snd (_mip_model (mkSelf gp_model net input_vars output_vars [] [])))
    as [e|[]]; [discriminate|].
  inversion H; subst. auto.
Qed.

Lemma _mip_model_state s :
  State (self_gp_model (fst (_mip_model s))) = State (self_gp_model s).
Proof.
  set (l0 := {| _input := self_input s; output := None; layer := None;
                layer_weight := None; layer_bias := None |}).
  destruct (mip_loop_walk (self_predictor s) (length (self_predictor s)) 0 l0 s)
    as (cs & ls & _ & _ & _ & (_ & _ & _ & S & _)).
  unfold _mip_model, bind, gets. fold l0.
  destruct (mip_loop (length (self_predictor s)) 0 (self_predictor s) l0 s)
    as [s1 [e|l']]; simpl in *; [exact S|].
  destruct (self_output s1); simpl; [exact S|].
  destruct (layer l'); simpl; exact S.
Qed.

(** The names of the LayerEmbeddings of a returning pass over a validated
    network are the decimal indices of the layers. *)
Lemma walk_names numlayers o steps l cs ls r l' :
  walk numlayers o 0 steps l cs ls r ->
  forallb supported steps = true ->
  length steps = numlayers -> output l = None -> r = inr l' ->
  map layer_name ls = map str (seq 0 (length steps)).
Proof.
  intros Hw Hv Hn Ho Hr.
  destruct (walk_complete Hw Hv Hr) as [Hcs Hls].
  apply nth_error_ext. intros k.
  rewrite !nth_error_map.
  destruct (nth_error ls k) as [lay|] eqn:El; simpl.
  - assert (Hk : k < length steps).
    { rewrite <- Hls. apply nth_error_Some. congruence. }
    rewrite nth_error_seq. destruct (Nat.ltb_spec k (length steps)); [|lia].
    simpl. f_equal.
    destruct (walk_encodes Hw k El) as (c & Hc & Hname & _).
    destruct (walk_calls Hw Hv Hn Ho k Hc) as [Hcn _].
    simpl in Hcn. congruence.
  - apply nth_error_None in El. rewrite nth_error_seq.
    destruct (Nat.ltb_spec k (length steps)); [lia|reflexivity].
Qed.

Lemma str_inj a b : str a = str b -> a = b.
Proof.
  unfold str. intros H. apply Unsigned.to_uint_inj.
  apply (f_equal NilEmpty.uint_of_string) in H.
  rewrite !NilEmpty.usu in H. congruence.
Qed.

Lemma NoDup_map_str (l : list nat) : NoDup l -> NoDup (map str l).
Proof.
  induction 1 as [|a l Ha Hl IH]; simpl; constructor; [|exact IH].
  intros Hin. apply in_map_iff in Hin. destruct Hin as (b & E & Hb).
  apply str_inj in E. now subst.
Qed.

Lemma _mip_model_added s : exists ls, added s (fst (_mip_model s)) ls.
Proof.
  set (l0 := {| _input := self_input s; output := None; layer := None;
                layer_weight := None; layer_bias := None |}).
  destruct (mip_loop_added (self_predictor s) (length (self_predictor s)) 0 l0 s)
    as (ls & H).
  exists ls. unfold _mip_model, bind, gets. fold l0.
  destruct (mip_loop (length (self_predictor s)) 0 (self_predictor s) l0 s)
    as [s1 [e|l']]; simpl in *; [exact H|].
  destruct (self_output s1); simpl; [exact H|].
  destruct (layer l'); simpl; exact H.
Qed.

(** X4: the LayerEmbeddings of a returned embedding are named "0", "1", ...
    after the index of their layer, so no two of them share a name. *)
Theorem layer_names_are_distinct_indices
    (gp_model : Model) (net : Sequential) (input_vars : MVar)
    (output_vars : option MVar) (g : Model) (obj : SequentialConstr) :
  add_sequential_constr gp_model net input_vars output_vars = (g, inr obj) ->
  map layer_name (self_layers obj) = map str (seq 0 (length net)) /\
  NoDup (map layer_name (self_layers obj)).
Proof.
  intros H. destruct (returned_run _ _ _ _ H) as (Hv & -> & _ & Hr).
  set (s0 := mkSelf gp_model net input_vars output_vars [] []) in *.
  destruct (_mip_model_walk s0) as (cs & ls & Hwalk & _ & Hl & _ & _ & He).
  cbv zeta in Hwalk, He. simpl in Hl. rewrite Hl.
  destruct (snd (mip_loop (length (self_predictor s0)) 0 (self_predictor s0)
                   (initial_locals s0) s0)) as [e|l'] eqn:Er.
  { simpl in He. rewrite Hr in He. discriminate. }
  assert (E : map layer_name ls = map str (seq 0 (length net))).
  { exact (walk_names Hwalk Hv eq_refl eq_refl eq_refl). }
  split; [exact E|]. rewrite E.
  apply NoDup_map_str, seq_NoDup.
Qed.

(** X3: a returned embedding has one LayerEmbedding per layer of the
    network, which passed validation.  The first reads the caller's input
    array, each next one the output array of its predecessor, and the
    object's output is the output array of the last, which is the caller's
    array when one was supplied.  The constraints of the returned model are
    those it had followed by those of the LayerEmbeddings. *)
Theorem returned_embedding_is_a_chain
    (gp_model : Model) (net : Sequential) (input_vars : MVar)
    (output_vars : option MVar) (g : Model) (obj : SequentialConstr) :
  add_sequential_constr gp_model net input_vars output_vars = (g, inr obj) ->
  forallb supported net = true /\
  g = self_gp_model obj /\ self_predictor obj = net /\
  self_input obj = input_vars /\
  length (self_layers obj) = length net /\
  (forall lay, nth_error (self_layers obj) 0 = Some lay ->
               layer_input lay = input_vars) /\
  (forall k a b,
     nth_error (self_layers obj) k = Some a ->
     nth_error (self_layers obj) (S k) = Some b ->
     layer_input b = layer_output a) /\
  match last_error (self_layers obj) with
  | Some lay => self_output obj = Some (layer_output lay)
  | None => self_output obj = output_vars
  end /\
  (forall y, output_vars = Some y -> self_output obj = Some y) /\
  Constrs g = Constrs gp_model ++ concat (map layer_constrs (self_layers obj)).
Proof.
  intros H. destruct (returned_run _ _ _ _ H) as (Hv & -> & -> & Hr).
  set (s0 := mkSelf gp_model net input_vars output_vars [] []) in *.
  destruct (_mip_model_walk s0) as (cs & ls & Hwalk & Hc & Hl & Hp & Hi & He).
  cbv zeta in Hwalk, He.
  destruct (_mip_model_inr (s := s0) Hv Hwalk He Hr) as (Hcs & Hls & Ho).
  simpl in Hl, Hp, Hi, Hcs, Hls, Ho.
  destruct (walk_chain Hwalk) as [Hfirst Hnext].
  rewrite Hl, Hp, Hi.
  split; [exact Hv|]. split; [reflexivity|]. split; [reflexivity|].
  split; [reflexivity|]. split; [exact Hls|]. split; [exact Hfirst|].
  split; [exact Hnext|]. split; [|split].
  - destruct output_vars as [y|].
    + destruct (last_error ls) as [lay|] eqn:Hlast; [|exact Ho].
      rewrite Ho. f_equal. symmetry.
      pose proof (last_error_nth _ Hlast) as Hk.
      destruct (walk_encodes Hwalk _ Hk) as (c & Hc' & _ & _ & Hout & _).
      apply Hout.
      destruct (walk_calls Hwalk Hv eq_refl eq_refl _ Hc') as [_ Hco].
      change (self_predictor s0) with net in Hco.
      change (self_output s0) with (Some y) in Hco.
      assert (E : S (length ls - 1) = length net).
      { rewrite <- Hls. destruct ls; [discriminate|simpl; lia]. }
      now rewrite E, Nat.eqb_refl in Hco.
    + destruct Ho as (lay & -> & Ho). exact Ho.
  - intros y ->. exact Ho.
  - destruct (_mip_model_added s0) as (ls2 & [Hl2 HC]).
    simpl in Hl2, HC. rewrite HC. do 3 f_equal. congruence.
Qed.

End Returned.

(** ** Construction followed by error evaluation *)

Section Compose.
Context {N : Numeric}.

(** X12: construction does not solve anything: on an embedding returned for
    a model that was not optimized, or was infeasible, [get_error] raises
    [NoSolution], and leaves the embedding as it is. *)
Theorem get_error_on_unsolved_embedding
    (gp_model : Model) (net : Sequential) (input_vars : MVar)
    (output_vars : option MVar) (g : Model) (obj : SequentialConstr) :
  add_sequential_constr gp_model net input_vars output_vars = (g, inr obj) ->
  State gp_model = NotOptimized \/ State gp_model = Infeasible ->
  get_error obj = (obj, inl NoSolution).
Proof.
  intros H Hs. destruct (returned_run _ _ _ _ H) as (_ & -> & _ & _).
  rewrite get_error_eq, _mip_model_state. simpl.
  now destruct Hs as [-> | ->].
Qed.

End Compose.

(** ** A pass that raises keeps what it added *)

Section NoRollback.
Context {N : Numeric}.

(** An activation layer encoded on a fresh output array: the variables of
    the array are the next [rows * columns] indices of the model. *)
Lemma add_activation_layer_fresh x act name s :
  exists s' lay,
    add_activation_layer x act None name s = (s', inr lay) /\
    layer_output lay =
      fresh_mvar (fst (shape x)) (snd (shape x)) (NumVars (self_gp_model s)) /\
    NumVars (self_gp_model s') =
      NumVars (self_gp_model s) + fst (shape x) * snd (shape x) /\
    length (self_layers s') = S (length (self_layers s)).
Proof.
  unfold add_activation_layer, bind, modify, ret, addConstrs, output_array, addMVar.
  eexists _, _. split; [reflexivity|]. simpl.
  rewrite length_app. simpl. repeat split; lia.
Qed.

Lemma relu_prefix_model pre : forall numlayers i l s,
  forallb isinstance_ReLU pre = true ->
  i + length pre < numlayers ->
  output l = None ->
  exists s' l',
    mip_loop numlayers i pre l s = (s', inr l') /\
    layer_weight l' = layer_weight l /\ layer_bias l' = layer_bias l /\
    shape (_input l') = shape (_input l) /\
    NumVars (self_gp_model s') =
      NumVars (self_gp_model s) +
      length pre * (fst (shape (_input l)) * snd (shape (_input l))) /\
    length (self_layers s') = length (self_layers s) + length pre.
Proof.
  induction pre as [|step pre IH]; intros numlayers i l s Hr Hn Ho.
  - exists s, l. simpl. repeat split; lia.
  - simpl in Hr, Hn. apply andb_prop in Hr. destruct Hr as [Hs Hr].
    simpl mip_loop. unfold bind. rewrite mip_step_eq. cbv zeta.
    rewrite Hs, step_output_nat, Ho.
    destruct (Nat.eqb_spec (S i) numlayers) as [E|_]; [lia|].
    destruct (add_activation_layer_fresh (_input l) ReLUAct (str i) s)
      as (s1 & lay & E & Hout & Hnv & Hlen).
    rewrite E.
    destruct (IH numlayers (S i)
                (step_locals numlayers (self_output s) i step l (Some lay)) s1 Hr)
      as (s' & l' & El & Hw & Hb & Hsh & Hv' & Hl').
    + lia.
    + simpl. rewrite step_output_nat, Ho.
      now destruct (Nat.eqb_spec (S i) numlayers); [lia|].
    + exists s', l'. split; [exact El|].
      simpl in Hw, Hb, Hsh, Hv'. unfold step_params in Hw, Hb.
      rewrite Hs in Hw, Hb. rewrite Hout in Hsh, Hv'. simpl in Hsh, Hv'.
      repeat split; auto.
      * rewrite Hsh. now destruct (shape (_input l)).
      * rewrite Hv', Hnv. simpl. lia.
      * rewrite Hl', Hlen. simpl. lia.
Qed.

(** X6: a failure after validation is not rolled back.  When the first
    affine layer of a validated network registers a weight but no bias, the
    constructor raises on the unbound local [layer_bias] after it has
    encoded the activation layers in front of it: the model it leaves has
    one array of the input's shape more for each of them, its earlier
    constraints as a prefix, and the same solve state. *)
Theorem failed_construction_keeps_earlier_layers
    (gp_model : Model) (input_vars : MVar) (output_vars : option MVar)
    (pre : list Module) (L : Module) (post : list Module) (W : tensor) :
  forallb isinstance_ReLU pre = true ->
  isinstance_ReLU L = false -> isinstance_Linear L = true ->
  get_parameter "weight" (named_parameters L) = Some W ->
  get_parameter "bias" (named_parameters L) = None ->
  forallb supported post = true ->
  exists g,
    add_sequential_constr gp_model (pre ++ L :: post) input_vars output_vars =
      (g, inl (UnboundLocalError "layer_bias")) /\
    NumVars g =
      NumVars gp_model +
      length pre * (fst (shape input_vars) * snd (shape input_vars)) /\
    State g = State gp_model /\
    exists cs, Constrs g = Constrs gp_model ++ cs.
Proof.
  intros Hpre Hr Hl Hw Hb Hpost.
  assert (Hv : forallb supported (pre ++ L :: post) = true).
  { rewrite forallb_app. simpl. rewrite Hpost. unfold supported at 2.
    rewrite Hl, orb_true_r. simpl. rewrite andb_true_r.
    clear - Hpre. induction pre as [|a pre IH]; simpl in *; [reflexivity|].
    apply andb_prop in Hpre. destruct Hpre as [Ha Hpre].
    unfold supported at 1. rewrite Ha. simpl. auto. }
  rewrite (@init_validated N gp_model _ input_vars output_vars Hv). cbv zeta.
  set (s0 := mkSelf gp_model (pre ++ L :: post) input_vars output_vars [] []).
  assert (E : exists s', _mip_model s0 = (s', inl (UnboundLocalError "layer_bias")) /\
                NumVars (self_gp_model s') =
                  NumVars gp_model +
                  length pre * (fst (shape input_vars) * snd (shape input_vars))).
  { unfold _mip_model, bind, gets. simpl self_predictor. rewrite mip_loop_app.
    destruct (@relu_prefix_model pre (length (pre ++ L :: post)) 0
                {| _input := input_vars; output := None; layer := None;
                   layer_weight := None; layer_bias := None |} s0 Hpre)
      as (s' & l' & E & Hlw & Hlb & _ & Hnv & _).
    - rewrite length_app. simpl. lia.
    - reflexivity.
    - simpl self_input. rewrite E. simpl mip_loop. unfold bind.
      rewrite mip_step_eq. cbv zeta.
      rewrite Hr, Hl, bind_parameters_spec, Hw, Hb, Hlb. simpl.
      exists s'. split; [reflexivity|exact Hnv]. }
  destruct E as (s' & E & Hnv).
  pose proof (_mip_model_state s0) as Hst.
  destruct (_mip_model_added s0) as (ls & [_ HC]).
  rewrite E in *. simpl in *.
  exists (self_gp_model s'). repeat split; auto. eauto.
Qed.

End NoRollback.

(** ** The loop over the named parameters *)

Section NamedParameters.
Context {N : Numeric}.

Lemma get_parameter_In name params p :
  NoDup (map fst params) ->
  (get_parameter name params = Some p <-> In (name, p) params).
Proof.
  revert p. induction params as [|[n q] rest IH]; simpl; intros p Hnd.
  - split; [discriminate|tauto].
  - inversion Hnd as [|? ? Hn Hrest]; subst.
    assert (IH' : forall p, get_parameter name rest = Some p <-> In (name, p) rest)
      by (intros; now apply IH).
    clear IH. rename IH' into IH.
    destruct (get_parameter name rest) as [r|] eqn:E.
    + assert (Hin : In (name, r) rest) by now apply IH.
      split.
      * intros H. inversion H; subst. now right.
      * intros [H|H].
        -- inversion H; subst. exfalso. apply Hn.
           apply in_map_iff. exists (name, r). auto.
        -- apply IH in H. congruence.
    + destruct (String.eqb_spec n name) as [->|Hne].
      * split.
        -- intros H. inversion H; subst. now left.
        -- intros [H|H]; [now inversion H|]. apply IH in H. discriminate.
      * split; [discriminate|].
        intros [H|H]; [inversion H; congruence|]. apply IH in H. discriminate.
Qed.

Lemma get_parameter_perm name params params' :
  NoDup (map fst params) -> Permutation params params' ->
  get_parameter name params = get_parameter name params'.
Proof.
  intros Hnd Hp.
  assert (Hnd' : NoDup (map fst params')).
  { eapply Permutation_NoDup; [|exact Hnd]. now apply Permutation_map. }
  destruct (get_parameter name params) as [p|] eqn:E.
  - symmetry. apply get_parameter_In; auto.
    eapply Permutation_in; [exact Hp|]. now apply get_parameter_In.
  - destruct (get_parameter name params') as [p'|] eqn:E'; [|reflexivity].
    apply get_parameter_In in E'; auto.
    apply Permutation_sym in Hp. eapply Permutation_in in E'; [|exact Hp].
    apply get_parameter_In in E'; auto. congruence.
Qed.

Lemma get_parameter_filter name (keep : string -> bool) params :
  keep name = true ->
  get_parameter name (filter (fun np => keep (fst np)) params) =
  get_parameter name params.
Proof.
  intros Hk. induction params as [|[n q] rest IH]; simpl; [reflexivity|].
  destruct (keep n) eqn:En; simpl; rewrite IH; [reflexivity|].
  destruct (get_parameter name rest); [reflexivity|].
  destruct (String.eqb_spec n name); [congruence|reflexivity].
Qed.

(** X8: what lines 103-107 bind depends only on the parameters named weight
    and bias.  With unique names (as torch registers them) the order in
    which [named_parameters] yields them is irrelevant, and parameters of
    any other name can be dropped; a local whose parameter is absent keeps
    the value it had. *)
Theorem bind_parameters_depends_on_weight_and_bias
    (params params' : list (string * tensor)) (lw lb : option tensor) :
  NoDup (map fst params) ->
  Permutation params params' ->
  bind_parameters params lw lb = bind_parameters params' lw lb /\
  bind_parameters
    (filter (fun np => String.eqb (fst np) "weight" || String.eqb (fst np) "bias")
       params) lw lb
  = bind_parameters params lw lb /\
  (get_parameter "weight" params = None ->
   fst (bind_parameters params lw lb) = lw) /\
  (get_parameter "bias" params = None ->
   snd (bind_parameters params lw lb) = lb).
Proof.
  intros Hnd Hp. rewrite !bind_parameters_spec.
  rewrite <- !(get_parameter_perm _ Hnd Hp).
  rewrite !(get_parameter_filter _
              (fun n => String.eqb n "weight" || String.eqb n "bias"))
    by reflexivity.
  repeat split; simpl; intros ->; reflexivity.
Qed.

End NamedParameters.

(** ** Transposition twice *)

Section TransposeTwice.

Lemma map_seq_nth {A} (f : nat -> list A) (l : list (list A)) :
  (forall j row, nth_error l j = Some row -> f j = row) ->
  map f (seq 0 (length l)) = l.
Proof.
  intros H. apply nth_error_ext. intros k.
  rewrite nth_error_map, nth_error_seq.
  destruct (Nat.ltb_spec k (length l)) as [Hk|Hk]; simpl.
  - destruct (nth_error l k) as [row|] eqn:E.
    + now rewrite (H _ _ E).
    + apply nth_error_None in E. lia.
  - symmetry. now apply nth_error_None.
Qed.

(** X9: [.T] is an involution on well-formed 2-D arrays: transposing the
    matrix handed to the affine encoder gives back the stored weight. *)
Theorem transpose_involutive {A} (a : array A) :
  wf_array a -> transpose (transpose a) = a.
Proof.
  intros Hwf. pose proof Hwf as [Hlen Hrows].
  unfold transpose at 1. cbn [shape transpose fst snd].
  destruct a as [[r c] rs]. cbn [shape rows fst snd] in *. f_equal.
  subst r. apply map_seq_nth. intros j row Hj.
  apply (column_transpose (a := {| shape := (length rs, c); rows := rs |}) j Hwf Hj).
Qed.

End TransposeTwice.

(** ** Solutions of the embedding are forward passes of the network *)

Section Soundness.
Context {N : Numeric}.

Lemma eval_terms_dot (X : var -> num) (w : list num) (xr : list var) :
  eval_terms X (combine w xr) = dot (map X xr) w.
Proof.
  unfold eval_terms, dot, map2. f_equal.
  revert xr. induction w as [|a w IH]; intros [|x xr]; simpl; try reflexivity.
  now rewrite IH.
Qed.

(** One sample row of an affine layer. *)
Lemma linear_row_sound (X : var -> num) (xr yr : list var)
    (Wrows : list (list num)) (b : list num) (out : nat) :
  length yr = out -> length b = out -> length Wrows = out ->
  Forall (satisfies X)
    (map (fun cyb => LinEq (snd (fst cyb))
                       (combine (nth (fst (fst cyb)) Wrows []) xr) (snd cyb))
         (combine (combine (seq 0 out) yr) b)) ->
  map X yr = map2 num_add (map (dot (map X xr)) Wrows) b.
Proof.
  intros Hy Hb Hw Hsat. unfold map2.
  apply nth_ext with (d := X 0)
                     (d' := (fun p => num_add (fst p) (snd p))
                              (dot (map X xr) [], num_zero)).
  - rewrite !length_map, length_combine, length_map. lia.
  - intros n Hn. rewrite length_map in Hn.
    rewrite (map_nth X), (map_nth (fun p => num_add (fst p) (snd p))).
    rewrite combine_nth by (rewrite length_map; lia).
    rewrite (map_nth (dot (map X xr))). cbn [fst snd].
    rewrite Forall_forall in Hsat.
    assert (Hin : In (n, nth n yr 0, nth n b num_zero)
                    (combine (combine (seq 0 out) yr) b)).
    { assert (E : nth n (combine (combine (seq 0 out) yr) b) (0, 0, num_zero)
                  = (n, nth n yr 0, nth n b num_zero)).
      { rewrite combine_nth; [|rewrite length_combine, length_seq; lia].
        rewrite combine_nth; [|rewrite length_seq; symmetry; exact Hy].
        rewrite seq_nth; [reflexivity|]. rewrite <- Hy. exact Hn. }
      rewrite <- E. apply nth_In.
      rewrite !length_combine, length_seq. lia. }
    specialize (Hsat _ (in_map _ _ _ Hin)). cbn [fst snd satisfies] in Hsat.
    now rewrite Hsat, eval_terms_dot.
Qed.

Lemma linear_rows_sound (X : var -> num) (Wrows : list (list num)) (b : list num)
    (out : nat) : forall xs ys : list (list var),
  length xs = length ys ->
  Forall (fun yr => length yr = out) ys ->
  length b = out -> length Wrows = out ->
  Forall (satisfies X)
    (concat (map2 (fun xr yr =>
                     map (fun cyb => LinEq (snd (fst cyb))
                                       (combine (nth (fst (fst cyb)) Wrows []) xr)
                                       (snd cyb))
                         (combine (combine (seq 0 out) yr) b)) xs ys)) ->
  map (map X) ys =
  map (fun xr => map2 num_add (map (dot xr) Wrows) b) (map (map X) xs).
Proof.
  induction xs as [|xr xs IH]; intros [|yr ys] Hlen Hys Hb Hw Hsat;
    try discriminate; [reflexivity|].
  inversion Hys as [|? ? Hyr Hys']; subst. unfold map2 in Hsat. simpl in Hsat.
  apply Forall_app in Hsat. destruct Hsat as [Hs1 Hs2].
  simpl. f_equal.
  - now apply linear_row_sound with (out := length b).
  - apply IH; auto.
Qed.

(** The equalities of an affine layer, in its stored orientation, pin the
    output values to the layer's own evaluation of the input values. *)
Lemma linear_constrs_sound (X : var -> num) (Xin Y : MVar) (W : array num)
    (b : list num) :
  wf_array Xin -> wf_array Y -> wf_array W ->
  snd (shape Xin) = snd (shape W) -> length b = fst (shape W) ->
  shape Y = (fst (shape Xin), fst (shape W)) ->
  Forall (satisfies X) (linear_constrs Xin W b Y) ->
  Linear_forward W (Some b) (Mat (array_map X Xin)) = Some (Mat (array_map X Y)).
Proof.
  intros [Lx Rx] [Ly Ry] [Lw Rw] Hin Hb Hsh Hsat.
  unfold Linear_forward, array_map. cbn [shape rows].
  rewrite Hin, Nat.eqb_refl. do 2 f_equal. rewrite Hsh. f_equal.
  symmetry. apply linear_rows_sound with (out := fst (shape W)); auto.
  - rewrite Lx, Ly, Hsh. reflexivity.
  - rewrite Hsh in Ry. exact Ry.
Qed.

Lemma relu_rows_sound (X : var -> num) : forall xs ys : list (list var),
  length xs = length ys ->
  Forall2 (fun xr yr => length xr = length yr) xs ys ->
  Forall (satisfies X)
    (concat (map2 (fun xr yr => map2 (fun x y => ReluEq y x) xr yr) xs ys)) ->
  map (map X) ys = map (map num_relu) (map (map X) xs).
Proof.
  induction xs as [|xr xs IH]; intros [|yr ys] Hlen H2 Hsat;
    try discriminate; [reflexivity|].
  inversion H2 as [|? ? ? ? Hrow H2']; subst. unfold map2 in Hsat. simpl in Hsat.
  apply Forall_app in Hsat. destruct Hsat as [Hs1 Hrest].
  simpl. f_equal; [|apply IH; auto].
  clear - Hs1 Hrow. revert yr Hs1 Hrow.
  induction xr as [|x xr IHr]; intros [|y yr] Hs1 Hl; try discriminate;
    [reflexivity|].
  simpl in *. inversion Hs1; subst. simpl in *. f_equal; auto.
Qed.

Lemma relu_constrs_sound (X : var -> num) (Xin Y : MVar) :
  wf_array Xin -> wf_array Y -> shape Y = shape Xin ->
  Forall (satisfies X) (activation_constrs ReLUAct Xin Y) ->
  forward nn_ReLU (Mat (array_map X Xin)) = Some (Mat (array_map X Y)).
Proof.
  intros [Lx Rx] [Ly Ry] Hsh Hsat. simpl. unfold array_map. cbn [shape rows].
  do 2 f_equal. rewrite Hsh. f_equal.
  symmetry. apply relu_rows_sound; auto.
  - rewrite Lx, Ly, Hsh. reflexivity.
  - rewrite Hsh in Ry. clear - Rx Ry Lx Ly Hsh.
    assert (Hl : length (rows Xin) = length (rows Y)) by (rewrite Lx, Ly, Hsh; auto).
    clear Lx Ly Hsh. revert Rx Ry Hl. generalize (snd (shape Xin)) as k.
    generalize (rows Y) as ys. generalize (rows Xin) as xs.
    induction xs as [|xr xs IH]; intros [|yr ys] k Rx Ry Hl; try discriminate;
      constructor.
    + inversion Rx; inversion Ry; subst. congruence.
    + inversion Rx; inversion Ry; subst. eapply IH; eauto.
Qed.

End Soundness.

Section SoundnessOfThePass.
Context {N : Numeric}.

Lemma wf_fresh_mvar n k base : wf_array (fresh_mvar n k base).
Proof.
  split; simpl.
  - now rewrite length_map, length_seq.
  - apply Forall_map, Forall_forall. intros r _. apply length_seq.
Qed.

Lemma well_shaped_cons numlayers i step rest sh lw lb o :
  well_shaped numlayers i (step :: rest) sh lw lb o =
  let out := if S i =? numlayers then o else None in
  if isinstance_ReLU step then
    out_ok out sh && well_shaped numlayers (S i) rest sh lw lb o
  else if isinstance_Linear step then
    match bind_parameters (named_parameters step) lw lb with
    | (Some (Mat W), Some (Vec b)) =>
        (snd sh =? fst (shape W)) && (length b =? snd (shape W)) &&
        out_ok out (fst sh, snd (shape W)) &&
        well_shaped numlayers (S i) rest (fst sh, snd (shape W))
          (Some (Mat W)) (Some (Vec b)) o
    | _ => false
    end
  else well_shaped numlayers (S i) rest sh lw lb o.
Proof.
  reflexivity.
Qed.

(** What a returned LayerEmbedding says about the encoder's arguments; its
    output has the expected shape when the output argument was acceptable. *)
Lemma output_array_inv o sh s s1 Y :
  output_array o sh s = (s1, inr Y) ->
  (out_ok o sh = true -> shape Y = sh) /\
  (o = None -> wf_array Y) /\ (forall y, o = Some y -> Y = y) /\
  self_layers s1 = self_layers s /\ self_output s1 = self_output s.
Proof.
  destruct o as [y|]; simpl.
  - unfold ret. intros H. inversion H; subst.
    repeat split; try discriminate; auto.
    + intros E. unfold shape_eqb in E. apply andb_prop in E. destruct E as [E1 E2].
      apply Nat.eqb_eq in E1, E2.
      destruct (shape Y), sh; simpl in *; congruence.
    + intros z Hz. now inversion Hz.
  - unfold addMVar. intros H. inversion H; subst. simpl.
    split; [now destruct sh|]. split; [intros _; apply wf_fresh_mvar|].
    split; [discriminate|]. auto.
Qed.

Lemma add_activation_layer_inv x act o name s s1 lay :
  add_activation_layer x act o name s = (s1, inr lay) ->
  layer_constrs lay = activation_constrs act x (layer_output lay) /\
  (out_ok o (shape x) = true -> shape (layer_output lay) = shape x) /\
  (o = None -> wf_array (layer_output lay)) /\
  (forall y, o = Some y -> layer_output lay = y) /\
  self_layers s1 = self_layers s ++ [lay] /\
  self_output s1 = self_output s.
Proof.
  unfold add_activation_layer, bind, modify, ret, addConstrs.
  destruct (output_array o (shape x) (log_call (ActivationCall x act o name) s))
    as [s' [e|Y]] eqn:E; [discriminate|].
  apply output_array_inv in E. destruct E as (Hsh & Hwf & Hy & Hl & Ho).
  intros H. inversion H; subst. simpl in *. rewrite Hl. auto 10.
Qed.

Lemma add_dense_layer_inv x W b o name s s1 lay :
  add_dense_layer x (Mat W) (Vec b) Identity o name s = (s1, inr lay) ->
  snd (shape x) = fst (shape W) /\ length b = snd (shape W) /\
  layer_constrs lay = affine_constrs x W b (layer_output lay) /\
  (out_ok o (fst (shape x), snd (shape W)) = true ->
   shape (layer_output lay) = (fst (shape x), snd (shape W))) /\
  (o = None -> wf_array (layer_output lay)) /\
  (forall y, o = Some y -> layer_output lay = y) /\
  self_layers s1 = self_layers s ++ [lay] /\
  self_output s1 = self_output s.
Proof.
  unfold add_dense_layer. unfold bind at 1. unfold modify at 1.
  destruct ((snd (shape x) =? fst (shape W)) && (length b =? snd (shape W)))
    eqn:Ed; [|discriminate].
  apply andb_prop in Ed. destruct Ed as [E1 E2]. apply Nat.eqb_eq in E1, E2.
  unfold bind, modify, ret, addConstrs.
  destruct (output_array o (fst (shape x), snd (shape W))
              (log_call (DenseCall x (Mat W) (Vec b) Identity o name) s))
    as [s' [e|Y]] eqn:E; [discriminate|].
  apply output_array_inv in E. destruct E as (Hsh & Hwf & Hy & Hl & Ho).
  intros H. inversion H; subst. simpl in *. rewrite Hl. auto 10.
Qed.

(** The loop over torch layers that meet the dimension contract, when it
    returns: the values a solution gives to the cursor it leaves are the
    network's evaluation of the values it gives to the cursor it started
    with. *)
Lemma mip_loop_sound steps : forall numlayers i l s s' l',
  Forall torch_layer steps ->
  i + length steps = numlayers ->
  output l = None ->
  wf_array (_input l) ->
  (forall y, self_output s = Some y -> wf_array y) ->
  well_shaped numlayers i steps (shape (_input l)) (layer_weight l) (layer_bias l)
    (self_output s) = true ->
  mip_loop numlayers i steps l s = (s', inr l') ->
  exists ls,
    self_layers s' = self_layers s ++ ls /\
    self_output s' = self_output s /\
    wf_array (_input l') /\
    (steps <> [] ->
     (exists lay, layer l' = Some lay /\ layer_output lay = _input l') /\
     forall y, self_output s = Some y -> _input l' = y) /\
    forall X, Forall (satisfies X) (concat (map layer_constrs ls)) ->
      Sequential_forward steps (Mat (array_map X (_input l))) =
      Some (Mat (array_map X (_input l'))).
Proof.
  induction steps as [|step rest IH];
    intros numlayers i l s s' l' Ht Hn Ho Hwf Hwo Hws Hrun.
  - inversion Hrun; subst. exists []. rewrite app_nil_r.
    split; [reflexivity|]. split; [reflexivity|]. split; [exact Hwf|].
    split; [congruence|]. intros X _. reflexivity.
  - inversion Ht as [|? ? Hstep Hrest]; subst.
    simpl mip_loop in Hrun. unfold bind in Hrun. rewrite mip_step_eq in Hrun.
    cbv zeta in Hrun. rewrite step_output_nat, Ho in Hrun.
    change (i + S (length rest)) with (i + length (step :: rest)) in Hrun.
    rewrite well_shaped_cons in Hws. cbv zeta in Hws.
    remember (if S i =? i + length (step :: rest) then self_output s else None)
      as out eqn:Eout.
    assert (Hout_last : rest = [] -> out = self_output s).
    { intros ->. rewrite Eout. simpl.
      now replace (i + 1) with (S i) by lia; rewrite Nat.eqb_refl. }
    assert (Hout_none : rest <> [] -> out = None).
    { intros Hr. rewrite Eout.
      destruct (Nat.eqb_spec (S i) (i + length (step :: rest))); [|reflexivity].
      destruct rest; [congruence|simpl in *; lia]. }
    assert (Hwf_out : forall Y, (out = None -> wf_array Y) ->
                                (forall y, out = Some y -> Y = y) -> wf_array Y).
    { intros Y H1 H2. destruct out as [y|]; [|auto].
      rewrite (H2 y eq_refl). apply Hwo.
      destruct rest as [|r rest']; [symmetry; now apply Hout_last|].
      discriminate Hout_none. discriminate. }
    (* what is left to do once the layer is encoded *)
    assert (Hnext : forall s1 lay,
      self_layers s1 = self_layers s ++ [lay] ->
      self_output s1 = self_output s ->
      wf_array (layer_output lay) ->
      (forall y, out = Some y -> layer_output lay = y) ->
      (forall X, Forall (satisfies X) (layer_constrs lay) ->
                 forward step (Mat (array_map X (_input l))) =
                 Some (Mat (array_map X (layer_output lay)))) ->
      well_shaped (i + length (step :: rest)) (S i) rest (shape (layer_output lay))
        (fst (step_params step (layer_weight l) (layer_bias l)))
        (snd (step_params step (layer_weight l) (layer_bias l)))
        (self_output s) = true ->
      mip_loop (i + length (step :: rest)) (S i) rest
        (step_locals (i + length (step :: rest)) (self_output s) i step l (Some lay))
        s1 = (s', inr l') ->
      exists ls,
        self_layers s' = self_layers s ++ ls /\
        self_output s' = self_output s /\
        wf_array (_input l') /\
        (step :: rest <> [] ->
         (exists lay0, layer l' = Some lay0 /\ layer_output lay0 = _input l') /\
         forall y, self_output s = Some y -> _input l' = y) /\
        forall X, Forall (satisfies X) (concat (map layer_constrs ls)) ->
          Sequential_forward (step :: rest) (Mat (array_map X (_input l))) =
          Some (Mat (array_map X (_input l')))).
    { intros s1 lay Hl1 Ho1 Hwf1 Hy1 Hfw Hws1 Hrun1.
      destruct rest as [|step' rest'].
      - inversion Hrun1; subst. exists [lay]. simpl.
        split; [exact Hl1|]. split; [exact Ho1|]. split; [exact Hwf1|]. split.
        + intros _. split; [eauto|].
          intros y Hy. apply Hy1. now rewrite Hout_last.
        + intros X HX. rewrite app_nil_r in HX. now rewrite Hfw.
      - assert (Hn' : S i + length (step' :: rest') =
                      i + length (step :: step' :: rest')) by (simpl; lia).
        assert (Ho' : output (step_locals (i + length (step :: step' :: rest'))
                                (self_output s) i step l (Some lay)) = None).
        { unfold step_locals. cbn [output].
          rewrite step_output_nat, Ho, <- Eout. apply Hout_none. discriminate. }
        assert (Hwo' : forall y, self_output s1 = Some y -> wf_array y).
        { intros y Hy. apply Hwo. congruence. }
        rewrite <- Ho1 in Hws1.
        destruct (IH _ _ _ _ _ _ Hrest Hn' Ho' Hwf1 Hwo' Hws1 Hrun1)
          as (ls & Hls & Hos & Hwfl' & Hlast & Hfwd).
        exists (lay :: ls). split; [rewrite Hls, Hl1; now rewrite <- app_assoc|].
        split; [congruence|]. split; [exact Hwfl'|]. split.
        + intros _. destruct (Hlast ltac:(discriminate)) as [H1 H2].
          split; [exact H1|]. intros y Hy. apply H2. congruence.
        + intros X HX. simpl in HX. apply Forall_app in HX.
          destruct HX as [HX1 HX2].
          change (Sequential_forward (step :: step' :: rest')
                    (Mat (array_map X (_input l))))
            with (match forward step (Mat (array_map X (_input l))) with
                  | Some y => Sequential_forward (step' :: rest') y
                  | None => None
                  end).
          rewrite (Hfw X HX1). exact (Hfwd X HX2). }
    destruct Hstep as [->|(W & b & HW & ->)].
    + (* nn.ReLU *)
      change (isinstance_ReLU nn_ReLU) with true in Hrun. cbv iota in Hrun.
      destruct (add_activation_layer (_input l) ReLUAct out (str i) s)
        as [s1 [e|lay]] eqn:E; [discriminate|].
      change (isinstance_ReLU nn_ReLU) with true in Hws. cbv iota in Hws.
      apply andb_prop in Hws. destruct Hws as [Hok Hws].
      apply add_activation_layer_inv in E.
      destruct E as (Hc & Hsh & Hwf1 & Hy1 & Hl1 & Ho1).
      specialize (Hsh Hok).
      assert (Hwfl : wf_array (layer_output lay)) by (apply Hwf_out; auto).
      apply (Hnext s1 lay); auto.
      * intros X HX. rewrite Hc in HX. now apply relu_constrs_sound.
      * rewrite Hsh. exact Hws.
    + (* nn.Linear with bias *)
      change (isinstance_ReLU (nn_Linear W (Some b))) with false in Hrun.
      change (isinstance_Linear (nn_Linear W (Some b))) with true in Hrun.
      cbv iota in Hrun.
      assert (Eb : bind_parameters (named_parameters (nn_Linear W (Some b)))
                     (layer_weight l) (layer_bias l)
                   = (Some (Mat (transpose W)), Some (Vec b))) by reflexivity.
      rewrite Eb in Hrun.
      change (isinstance_ReLU (nn_Linear W (Some b))) with false in Hws.
      change (isinstance_Linear (nn_Linear W (Some b))) with true in Hws.
      cbv iota in Hws. rewrite Eb in Hws.
      apply andb_prop in Hws. destruct Hws as [Hws Hws'].
      apply andb_prop in Hws. destruct Hws as [_ Hok].
      destruct (add_dense_layer (_input l) (Mat (transpose W)) (Vec b) Identity out
                  (str i) s) as [s1 [e|lay]] eqn:E; [discriminate|].
      apply add_dense_layer_inv in E.
      destruct E as (Hd1 & Hd2 & Hc & Hsh & Hwf1 & Hy1 & Hl1 & Ho1).
      specialize (Hsh Hok).
      assert (Hwfl : wf_array (layer_output lay)) by (apply Hwf_out; auto).
      apply (Hnext s1 lay); auto.
      * intros X HX. rewrite Hc, affine_transpose in HX by exact HW.
        simpl in Hd1, Hd2, Hsh.
        apply linear_constrs_sound; auto.
      * rewrite Hsh. unfold step_params.
        change (isinstance_ReLU (nn_Linear W (Some b))) with false.
        change (isinstance_Linear (nn_Linear W (Some b))) with true.
        cbv iota. rewrite Eb. exact Hws'.
Qed.

(** The pass over a network of torch layers that meets the dimension
    contract, when it returns. *)
Lemma _mip_model_sound s :
  Forall torch_layer (self_predictor s) ->
  self_predictor s <> [] ->
  wf_array (self_input s) ->
  (forall y, self_output s = Some y -> wf_array y) ->
  well_shaped (length (self_predictor s)) 0 (self_predictor s)
    (shape (self_input s)) None None (self_output s) = true ->
  snd (_mip_model s) = inr tt ->
  exists ls out,
    self_layers (fst (_mip_model s)) = self_layers s ++ ls /\
    self_output (fst (_mip_model s)) = Some out /\
    wf_array out /\
    forall X, Forall (satisfies X) (concat (map layer_constrs ls)) ->
      Sequential_forward (self_predictor s) (Mat (array_map X (self_input s))) =
      Some (Mat (array_map X out)).
Proof.
  intros Ht Hne Hwf Hwo Hws. unfold _mip_model, bind, gets.
  set (l0 := {| _input := self_input s; output := None; layer := None;
                layer_weight := None; layer_bias := None |}).
  destruct (mip_loop (length (self_predictor s)) 0 (self_predictor s) l0 s)
    as [s1 [e|l']] eqn:E; [discriminate|].
  destruct (@mip_loop_sound (self_predictor s) (length (self_predictor s)) 0
              l0 s s1 l' Ht eq_refl eq_refl Hwf Hwo Hws E)
    as (ls & Hls & Hos & Hwfl & Hlast & Hfwd).
  destruct (Hlast Hne) as [(lay & Hlay & Hlo) Hy].
  exists ls, (_input l'). simpl in Hfwd.
  destruct (self_output s1) as [y|] eqn:Eo; simpl.
  - rewrite Eo. rewrite <- (Hy y) by congruence. auto.
  - rewrite Hlay. simpl. rewrite Hlo. auto.
Qed.

(** X10: soundness of the embedding.  For a non-empty network of [nn.ReLU]
    and [nn.Linear] (with bias) layers that meets the dimension contract
    (the widths of the input, of the weights and biases and of a supplied
    output fit), well-formed arrays and a returned embedding, every
    assignment of the variables that satisfies the constraints of the
    returned model gives the output variables the values the network's own
    [forward] computes from the values of the input variables. *)
Theorem embedding_is_sound
    (gp_model : Model) (net : Sequential) (input_vars : MVar)
    (output_vars : option MVar) (g : Model) (obj : SequentialConstr)
    (X : var -> num) :
  Forall torch_layer net -> net <> [] ->
  wf_array input_vars ->
  (forall y, output_vars = Some y -> wf_array y) ->
  well_shaped (length net) 0 net (shape input_vars) None None output_vars = true ->
  add_sequential_constr gp_model net input_vars output_vars = (g, inr obj) ->
  Forall (satisfies X) (Constrs g) ->
  exists out,
    self_output obj = Some out /\ wf_array out /\
    Sequential_forward net (Mat (array_map X input_vars)) =
    Some (Mat (array_map X out)).
Proof.
  intros Ht Hne Hwf Hwo Hws H Hsat.
  destruct (returned_run _ _ _ _ H) as (_ & -> & -> & Hr).
  set (s0 := mkSelf gp_model net input_vars output_vars [] []) in *.
  destruct (_mip_model_sound s0 Ht Hne Hwf Hwo Hws Hr)
    as (ls & out & Hls & Ho & Hwfo & Hfwd).
  destruct (_mip_model_added s0) as (ls2 & [Hl2 HC]).
  assert (ls2 = ls) by (rewrite Hls in Hl2; now apply app_inv_head in Hl2).
  subst ls2. rewrite HC in Hsat. apply Forall_app in Hsat.
  exists out. split; [exact Ho|]. split; [exact Hwfo|].
  apply Hfwd. apply Hsat.
Qed.



End SoundnessOfThePass.

(** ** When the constructor returns *)

Section ReturnsIff.
Context {N : Numeric}.

(** A loop that returns has found the parameter locals bound at every
    affine layer. *)
Lemma mip_loop_returns_bound steps : forall numlayers i l s s' l',
  mip_loop numlayers i steps l s = (s', inr l') ->
  well_bound steps (layer_weight l) (layer_bias l) = true.
Proof.
  induction steps as [|step rest IH]; intros numlayers i l s s' l' Hrun;
    [reflexivity|].
  simpl mip_loop in Hrun. unfold bind in Hrun. rewrite mip_step_eq in Hrun.
  cbv zeta in Hrun. cbn [well_bound].
  destruct (isinstance_ReLU step) eqn:Er.
  - destruct (add_activation_layer _ _ _ _ s) as [s1 [e|lay]] eqn:E;
      [discriminate|].
    apply IH in Hrun. simpl in Hrun. unfold step_params in Hrun.
    rewrite Er in Hrun. exact Hrun.
  - destruct (isinstance_Linear step) eqn:El.
    + destruct (bind_parameters (named_parameters step) (layer_weight l) (layer_bias l))
        as [[w|] [b|]] eqn:Eb; try discriminate.
      destruct (add_dense_layer _ _ _ _ _ _ s) as [s1 [e|lay]] eqn:E;
        [discriminate|].
      apply IH in Hrun. simpl in Hrun. unfold step_params in Hrun.
      rewrite Er, El, Eb in Hrun. exact Hrun.
    + apply IH in Hrun. simpl in Hrun. unfold step_params in Hrun.
      rewrite Er, El in Hrun. exact Hrun.
Qed.

(** X2: when the constructor returns.  It returns on every network that
    passes validation, meets the dimension contract of the encoders along
    the walk and is not the empty network without output.  Whenever it
    returns, the network passed validation, is not the empty network
    without output, and every layer that took the affine branch found both
    [layer_weight] and [layer_bias] bound. *)
Theorem constructor_returns_conditions
    (gp_model : Model) (net : Sequential) (input_vars : MVar)
    (output_vars : option MVar) :
  (forallb supported net = true /\
   well_shaped (length net) 0 net (shape input_vars) None None output_vars = true /\
   (net <> [] \/ output_vars <> None) ->
   exists g obj,
     add_sequential_constr gp_model net input_vars output_vars = (g, inr obj)) /\
  ((exists g obj,
      add_sequential_constr gp_model net input_vars output_vars = (g, inr obj)) ->
   forallb supported net = true /\
   well_bound net None None = true /\
   (net <> [] \/ output_vars <> None)).
Proof.
  set (s0 := mkSelf gp_model net input_vars output_vars [] []).
  split.
  - intros (Hv & Hw & Hne).
    rewrite (@init_validated N gp_model net input_vars output_vars Hv). cbv zeta.
    fold s0.
    rewrite (_mip_model_returns s0 Hv Hw Hne). eauto.
  - intros (g & obj & H).
    destruct (returned_run _ _ _ _ H) as (Hv & _ & _ & Hr).
    pose proof (constructor_cases gp_model net input_vars output_vars) as Ho.
    rewrite H in Ho. destruct Ho as (_ & _ & Hne).
    split; [exact Hv|]. split; [|exact Hne].
    fold s0 in Hr. unfold _mip_model, bind, gets in Hr.
    destruct (mip_loop (length (self_predictor s0)) 0 (self_predictor s0)
                {| _input := self_input s0; output := None; layer := None;
                   layer_weight := None; layer_bias := None |} s0)
      as [s1 [e|l']] eqn:E; [discriminate|].
    exact (@mip_loop_returns_bound net (length net) 0
             {| _input := input_vars; output := None; layer := None;
                layer_weight := None; layer_bias := None |}
             s0 s1 l' E).
Qed.

End ReturnsIff.

(** ** The further theorems on the concrete inputs *)

Lemma net_ok_returned :
  add_sequential_constr Ex.gp Ex.net_ok Ex.x None = (Ex.model_ok, inr Ex.obj_ok).
Proof.
  reflexivity.
Defined.

Lemma net_ok_torch_layers : Forall torch_layer Ex.net_ok.
Proof.
  constructor; [|constructor; [now left|constructor]].
  right. exists Ex.W1, Ex.b1. split; [|reflexivity].
  split; [reflexivity|]. repeat constructor.
Defined.

Lemma x_wf : wf_array Ex.x.
Proof.
  split; [reflexivity|]. repeat constructor.
Defined.

Lemma net_ok_solution : Forall (satisfies Ex.sol) (Constrs Ex.model_ok).
Proof.
  repeat constructor.
Defined.

Lemma X3_witness :
  length (self_layers Ex.obj_ok) = length Ex.net_ok /\
  Constrs Ex.model_ok =
    Constrs Ex.gp ++ concat (map layer_constrs (self_layers Ex.obj_ok)).
Proof.
  destruct (@returned_embedding_is_a_chain ZNumeric Ex.gp Ex.net_ok Ex.x None
              Ex.model_ok Ex.obj_ok net_ok_returned)
    as (_ & _ & _ & _ & Hlen & _ & _ & _ & _ & HC).
  split; [exact Hlen|exact HC].
Defined.

Lemma X4_witness :
  map layer_name (self_layers Ex.obj_ok) = ["0"; "1"] /\
  NoDup (map layer_name (self_layers Ex.obj_ok)).
Proof.
  exact (@layer_names_are_distinct_indices ZNumeric Ex.gp Ex.net_ok Ex.x None
           Ex.model_ok Ex.obj_ok net_ok_returned).
Defined.

Lemma X6_witness :
  exists g,
    add_sequential_constr Ex.gp Ex.net_relu_nobias Ex.x None =
      (g, inl (UnboundLocalError "layer_bias")) /\
    NumVars g = 4.
Proof.
  destruct (@failed_construction_keeps_earlier_layers ZNumeric Ex.gp Ex.x None
              [nn_ReLU] Ex.linear1_nobias [] Ex.weight1
              eq_refl eq_refl eq_refl eq_refl eq_refl eq_refl)
    as (g & H & Hv & _).
  exists g. split; [exact H|exact Hv].
Defined.

Lemma X7_witness :
  snd (_mip_model (Ex.self0 Ex.net_weight_norm None)) =
  inl (UnboundLocalError "layer_weight").
Proof.
  exact (@unbound_weight_raises ZNumeric (Ex.self0 Ex.net_weight_norm None)
           [nn_ReLU] Ex.linear_weight_norm [] eq_refl eq_refl eq_refl eq_refl eq_refl).
Defined.

Lemma X8_witness :
  bind_parameters [("weight", Ex.weight1); ("bias", Ex.bias1)] None None =
  bind_parameters [("bias", Ex.bias1); ("weight", Ex.weight1)] None None.
Proof.
  refine (proj1 (@bind_parameters_depends_on_weight_and_bias ZNumeric
                   [("weight", Ex.weight1); ("bias", Ex.bias1)]
                   [("bias", Ex.bias1); ("weight", Ex.weight1)] None None _ _)).
  - repeat constructor; simpl; intuition discriminate.
  - apply perm_swap.
Defined.

Lemma X9_witness : transpose (transpose Ex.W1) = Ex.W1.
Proof.
  apply transpose_involutive. split; [reflexivity|]. repeat constructor.
Defined.

Lemma X10_witness :
  exists out,
    self_output Ex.obj_ok = Some out /\ wf_array out /\
    Sequential_forward Ex.net_ok (Mat (array_map Ex.sol Ex.x)) =
    Some (Mat (array_map Ex.sol out)).
Proof.
  exact (@embedding_is_sound ZNumeric Ex.gp Ex.net_ok Ex.x None
           Ex.model_ok Ex.obj_ok Ex.sol
           net_ok_torch_layers ltac:(discriminate) x_wf
           ltac:(discriminate) eq_refl net_ok_returned net_ok_solution).
Defined.


Lemma X12_witness :
  get_error Ex.obj_ok = (Ex.obj_ok, inl NoSolution).
Proof.
  exact (@get_error_on_unsolved_embedding ZNumeric Ex.gp Ex.net_ok Ex.x None
           Ex.model_ok Ex.obj_ok net_ok_returned (or_introl eq_refl)).
Defined.
